(** * TopicsStats plugin: topic reconciliation, per-topic statistics and
      search highlighting

    A shallow embedding of the core of [TopicsStats.cc]: the periodic
    [TopicsStats::FillTopics] slot, the message callback
    [TopicsStats::OnMessage], [TopicsStats::UpdateGUIStats],
    [TopicsStats::ResetStats], the destructor, the row filter
    [SearchModel::filterAcceptsRow] and the text part of
    [ItemDelegate::paint]; further [SearchModel::headerData],
    [ItemModel::mimeData], and [DisplayPlugin::LoadConfig], [Scene] and
    [Visual] of [DisplayPlugin.cc].

    Conventions of the model:
    - [uint64_t] counters are integers of [Z] reduced modulo [2^64] after
      every update ([wrap64]);
    - the transport node is an external collaborator: its answer to
      [TopicList] and to each [Subscribe] of one cycle is an input of the
      cycle, and every call made on it is recorded in a trace of events;
    - [std::lock_guard] on [modelsMutex] is recorded as [EvLock] at its
      construction and [EvUnlock] at the end of the enclosing scope;
    - the Qt item model (rows, item pointers, fonts, rectangles) is not
      part of the model; what [UpdateGUIStats] writes into the items is
      kept as a value per topic;
    - [std::string] and [QString] contents are lists of 8-bit characters,
      and upper-casing is the one of the "C" locale (ASCII letters). *)

From Stdlib Require Import ZArith QArith Lia Ascii String.
From stdpp Require Import gmap strings list.

(** ** Definitions *)

Module TopicsStats.

(** [uint64_t] arithmetic wraps around. *)
Definition wrap64 (x : Z) : Z := (x mod 2 ^ 64)%Z.

(** [class BasicStats], without the pointers to the Qt items. *)
Record BasicStats := mkBasicStats {
  numMessages : Z;
  numMessagesLastSec : Z;
  numBytesLastSec : Z
}.

(** [BasicStats()]: every counter starts at 0. *)
Definition BasicStats_new : BasicStats := mkBasicStats 0 0 0.

(** [class TopicsStatsPrivate]: the topics of the last update and the
    statistics per topic. *)
Record TopicsStatsPrivate := mkPrivate {
  prevTopics : list string;
  stats : gmap string BasicStats
}.

(** State built by the constructor. *)
Definition initial : TopicsStatsPrivate := mkPrivate [] ∅.

(** What [UpdateGUIStats] writes into the three items of a topic. *)
Record gui_row := mkRow {
  shownMessages : Z;
  shownHz : Z;
  shownBandwidth : Q;
  shownUnits : string
}.

(** Observable actions, in program order. *)
Inductive event :=
| EvTopicList (topics : list string)
| EvLock
| EvUnlock
| EvUnsubscribe (topic : string)
| EvSubscribe (topic : string) (ok : bool)
| EvCerr (msg : string)
| EvGui (rows : gmap string gui_row).

(** What the transport node answers during one call of [FillTopics]. *)
Record cycle := mkCycle {
  listed : list string;
  subscribe : string → bool
}.

(** First loop of [FillTopics]: every previous topic that [std::find] does
    not see in [topics] is unsubscribed and its statistics are erased. *)
Fixpoint remove_expired (topics prev : list string)
    (m : gmap string BasicStats) : gmap string BasicStats * list event :=
  match prev with
  | [] => (m, [])
  | topic :: rest =>
      if bool_decide (topic ∈ topics) then remove_expired topics rest m
      else
        let '(m', tr) := remove_expired topics rest (delete topic m) in
        (m', EvUnsubscribe topic :: tr)
  end.

(** Second loop of [FillTopics]: every listed topic that [std::find] does
    not see in [prevTopics] is subscribed; on failure an error is printed
    and the loop continues, on success the statistics start afresh. *)
Fixpoint add_new (sub : string → bool) (prev topics : list string)
    (m : gmap string BasicStats) : gmap string BasicStats * list event :=
  match topics with
  | [] => (m, [])
  | topic :: rest =>
      if bool_decide (topic ∈ prev) then add_new sub prev rest m
      else if sub topic then
        let '(m', tr) := add_new sub prev rest (<[topic := BasicStats_new]> m) in
        (m', EvSubscribe topic true :: tr)
      else
        let '(m', tr) := add_new sub prev rest m in
        (m', EvSubscribe topic false
               :: EvCerr ("Error subscribing to [" +:+ topic +:+ "]") :: tr)
  end.

(** Bandwidth and unit shown for a byte count of the last second. The
    [double] of the source is represented by the exact rational: the
    conversion of a [uint64_t] is monotone and 1000 and 1000000 are
    representable, so the comparisons select the same branch. *)
Definition bandwidth_units (numBytes : Z) : Q * string :=
  let bandwidth := inject_Z numBytes in
  if negb (Qle_bool 1000 bandwidth) then (bandwidth, "B/s")
  else if negb (Qle_bool 1000000 bandwidth) then ((bandwidth / 1000)%Q, "KB/s")
  else ((bandwidth / 1000000)%Q, "MB/s").

Definition gui_row_of (s : BasicStats) : gui_row :=
  let '(b, u) := bandwidth_units (numBytesLastSec s) in
  mkRow (numMessages s) (numMessagesLastSec s) b u.

(** [TopicsStats::UpdateGUIStats]. *)
Definition UpdateGUIStats (m : gmap string BasicStats) : gmap string gui_row :=
  gui_row_of <$> m.

(** [TopicsStats::ResetStats]. *)
Definition ResetStats (m : gmap string BasicStats) : gmap string BasicStats :=
  (λ s, mkBasicStats (numMessages s) 0 0) <$> m.

(** [TopicsStats::FillTopics]. *)
Definition FillTopics (c : cycle) (d : TopicsStatsPrivate)
    : TopicsStatsPrivate * list event :=
  let topics := listed c in
  let '(m1, tr1) := remove_expired topics (prevTopics d) (stats d) in
  let '(m2, tr2) := add_new (subscribe c) (prevTopics d) topics m1 in
  let rows := UpdateGUIStats m2 in
  let m3 := ResetStats m2 in
  (mkPrivate topics m3,
   EvTopicList topics :: EvLock :: tr1 ++ tr2 ++ [EvGui rows; EvUnlock]).

(** [TopicsStats::OnMessage], for a message of [byteSize] bytes
    ([_msg.ByteSize()], an [int]) received on [topic]. *)
Definition OnMessage (topic : string) (byteSize : Z) (d : TopicsStatsPrivate)
    : TopicsStatsPrivate * list event :=
  match stats d !! topic with
  | None =>
      (d, [EvLock; EvCerr ("Unable to find stats for [" +:+ topic +:+ "]");
           EvUnlock])
  | Some s =>
      let s' := mkBasicStats (wrap64 (numMessages s + 1))
                             (wrap64 (numMessagesLastSec s + 1))
                             (wrap64 (numBytesLastSec s + byteSize)) in
      (mkPrivate (prevTopics d) (<[topic := s']> (stats d)), [EvLock; EvUnlock])
  end.


(** The plugin reacts to timer ticks and to messages. *)
Inductive input :=
| Tick (c : cycle)
| Message (topic : string) (byteSize : Z).

Definition step (d : TopicsStatsPrivate) (i : input)
    : TopicsStatsPrivate * list event :=
  match i with
  | Tick c => FillTopics c d
  | Message topic byteSize => OnMessage topic byteSize d
  end.

Fixpoint run (d : TopicsStatsPrivate) (ins : list input)
    : TopicsStatsPrivate * list event :=
  match ins with
  | [] => (d, [])
  | i :: rest =>
      let '(d1, tr1) := step d i in
      let '(d2, tr2) := run d1 rest in
      (d2, tr1 ++ tr2)
  end.


(** Whether the mutex is held after a trace, starting from [held]. *)
Fixpoint lock_held (held : bool) (tr : list event) : bool :=
  match tr with
  | [] => held
  | EvLock :: rest => lock_held true rest
  | EvUnlock :: rest => lock_held false rest
  | _ :: rest => lock_held held rest
  end.

Definition is_bus_call (e : event) : bool :=
  match e with
  | EvSubscribe _ _ | EvUnsubscribe _ => true
  | _ => false
  end.


Definition is_subscribe (topic : string) (e : event) : bool :=
  match e with
  | EvSubscribe t _ => bool_decide (t = topic)
  | _ => false
  end.

(** The calls that the second loop of [FillTopics] makes for one listed
    topic. *)
Definition add_calls (sub : string → bool) (prev : list string)
    (topic : string) : list event :=
  if bool_decide (topic ∈ prev) then []
  else if sub topic then [EvSubscribe topic true]
  else [EvSubscribe topic false;
        EvCerr ("Error subscribing to [" +:+ topic +:+ "]")].

(** Whether every call on the transport node in a trace is made while the
    mutex is held, starting from [held]. *)
Fixpoint calls_locked (held : bool) (tr : list event) : bool :=
  match tr with
  | [] => true
  | e :: rest =>
      (if is_bus_call e then held else true)
      && calls_locked (lock_held held [e]) rest
  end.

Definition is_lock_event (e : event) : bool :=
  match e with
  | EvLock | EvUnlock => true
  | _ => false
  end.



(** The statistics only hold previous topics. *)
Definition tracked_within (d : TopicsStatsPrivate) : Prop :=
  dom (stats d) ⊆ list_to_set (prevTopics d).


(** A topic that is a previous topic and has no statistics. *)
Definition shelved (t : string) (d : TopicsStatsPrivate) : Prop :=
  t ∈ prevTopics d ∧ stats d !! t = None.

End TopicsStats.

(** Character strings: [std::string] and [QString] operations used by the
    search. *)
Module Str.

(** [::toupper] in the "C" locale. *)
Definition toupper (c : ascii) : ascii :=
  let n := nat_of_ascii c in
  if (97 <=? n) && (n <=? 122) then ascii_of_nat (n - 32) else c.

(** [std::transform(..., ::toupper)] and [QString::toUpper]. *)
Definition upper (s : list ascii) : list ascii := map toupper s.

Definition space : ascii := " "%char.

(** [QString::split(sep)] for a separator of one character: empty parts are
    kept. *)
Fixpoint split (sep : ascii) (s : list ascii) : list (list ascii) :=
  match s with
  | [] => [[]]
  | c :: rest =>
      if Ascii.eqb c sep then [] :: split sep rest
      else match split sep rest with
           | [] => [[c]]
           | w :: ws => (c :: w) :: ws
           end
  end.

(** Whether [word] is written at the very start of [text]. *)
Fixpoint starts_with (word text : list ascii) : bool :=
  match word, text with
  | [], _ => true
  | _ :: _, [] => false
  | w :: word', c :: text' => Ascii.eqb w c && starts_with word' text'
  end.

(** Scan of [std::string::find]: [text] is the part of the string that
    starts at index [pos]. *)
Fixpoint find_at (text word : list ascii) (pos : nat) {struct text} : option nat :=
  if starts_with word text then Some pos
  else match text with
       | [] => None
       | _ :: rest => find_at rest word (S pos)
       end.

(** [text.find(word, pos)]; [None] is [std::string::npos]. *)
Definition find (text word : list ascii) (pos : nat) : option nat :=
  if pos <=? length text then find_at (drop pos text) word pos else None.

(** [text.substr(pos, n)], for [pos <= text.size()]. *)
Definition substr (text : list ascii) (pos n : nat) : list ascii :=
  take n (drop pos text).


(** [words] written one after the other with [sep] in between. *)
Fixpoint join (sep : ascii) (words : list (list ascii)) : list ascii :=
  match words with
  | [] => []
  | [w] => w
  | w :: rest => w ++ sep :: join sep rest
  end.

(** [word] is written somewhere in [text]. *)
Definition infix_of (word text : list ascii) : Prop :=
  ∃ pre post, text = pre ++ word ++ post.

(** [word] is written in [text] if the case of letters is ignored. *)
Definition ci_substring (word text : list ascii) : Prop :=
  infix_of (upper word) (upper text).

(** [word] is written in [text] at offset [pos], ignoring case. *)
Definition ci_match_at (word text : list ascii) (pos : nat) : Prop :=
  starts_with (upper word) (drop pos (upper text)) = true.

End Str.

Module SearchModel.

(** [SearchModel::filterAcceptsRowItself]: the row is represented by the
    string it holds under the filter role;
    [QString::contains(_word, Qt::CaseInsensitive)]. *)
Definition filterAcceptsRowItself (label word : list ascii) : bool :=
  match Str.find (Str.upper label) (Str.upper word) 0 with
  | Some _ => true
  | None => false
  end.

(** The loop over the words of [SearchModel::filterAcceptsRow]. *)
Fixpoint accepts_words (label : list ascii) (words : list (list ascii)) : bool :=
  match words with
  | [] => true
  | word :: rest =>
      match word with
      | [] => accepts_words label rest
      | _ :: _ =>
          if filterAcceptsRowItself label word then accepts_words label rest
          else false
      end
  end.

(** [SearchModel::filterAcceptsRow]. *)
Definition filterAcceptsRow (search label : list ascii) : bool :=
  match search with
  | [] => true
  | _ :: _ => accepts_words label (Str.split Str.space search)
  end.

End SearchModel.

Module ItemDelegate.

(** The [std::map<size_t, size_t> bold], as the list of its pairs in
    increasing key order (the order of its iterator). *)
Definition bold_map := list (nat * nat).

(** [bold.find(pos)]. *)
Fixpoint bold_get (pos : nat) (bold : bold_map) : option nat :=
  match bold with
  | [] => None
  | (k, v) :: rest => if pos =? k then Some v else bold_get pos rest
  end.

(** [bold[pos] = std::max(bold[pos], len)]: a missing key is first created
    with value 0. *)
Fixpoint bold_upd (pos len : nat) (bold : bold_map) : bold_map :=
  match bold with
  | [] => [(pos, Nat.max 0 len)]
  | (k, v) :: rest =>
      if pos <? k then (pos, Nat.max 0 len) :: (k, v) :: rest
      else if pos =? k then (k, Nat.max v len) :: rest
      else (k, v) :: bold_upd pos len rest
  end.

(** The [while (pos != npos)] loop of the lambda, for one word. The loop
    is run for at most [fuel] iterations; [None] means that it had not
    finished by then. *)
Fixpoint mark_word (fuel : nat) (upperText word : list ascii)
    (pos : option nat) (bold : bold_map) : option bold_map :=
  match pos with
  | None => Some bold
  | Some p =>
      match fuel with
      | 0 => None
      | S fuel' =>
          mark_word fuel' upperText word (Str.find upperText word (p + 1))
            (bold_upd p (length word) bold)
      end
  end.

(** [std::for_each(wordsUpper.begin(), wordsUpper.end(), ...)]. *)
Fixpoint mark_words (upperText : list ascii) (wordsUpper : list (list ascii))
    (bold : bold_map) : option bold_map :=
  match wordsUpper with
  | [] => Some bold
  | word :: rest =>
      match mark_word (S (length upperText)) upperText word
              (Str.find upperText word 0) bold with
      | None => None
      | Some bold' => mark_words upperText rest bold'
      end
  end.

(** The words of the search, upper-cased, without the empty ones. *)
Definition wordsUpper (search : list ascii) : list (list ascii) :=
  filter (λ w, w ≠ []) (Str.split Str.space (Str.upper search)).

(** The bold map that [paint] builds for a search and a topic name. *)
Definition bold_of (search text : list ascii) : option bold_map :=
  mark_words (Str.upper text) (wordsUpper search) [].

Inductive font := Regular | Bold.

(** One [drawText]: the font, the offset and length passed to [substr],
    and the string drawn. *)
Record run := mkRun {
  rfont : font;
  rpos : nat;
  rlen : nat;
  rtext : list ascii
}.

(** The check of a bold entry against the current render position: an
    entry that starts before it is cut down to the part beyond it, or
    skipped ([None]) when nothing of it lies beyond. *)
Definition adjust (renderPos start len : nat) : option (nat * nat) :=
  if start <? renderPos then
    if renderPos <? start + len
    then Some (renderPos, (start + len) - renderPos)
    else None
  else Some (start, len).

(** The loop that paints from left to right; it returns the final
    [renderPos] and the runs drawn. Offsets never exceed [text.size()], so
    the [size_t] arithmetic does not wrap. *)
Fixpoint paint_loop (text : list ascii) (bold : bold_map) (renderPos : nat)
    : nat * list run :=
  match bold with
  | [] => (renderPos, [])
  | (start, len) :: rest =>
      match adjust renderPos start len with
      | None => paint_loop text rest renderPos
      | Some (start', len') =>
          let plain := mkRun Regular renderPos (start' - renderPos)
                         (Str.substr text renderPos (start' - renderPos)) in
          let renderPos1 := renderPos + (start' - renderPos) in
          let strong := mkRun Bold renderPos1 len'
                          (Str.substr text renderPos1 len') in
          let renderPos2 := renderPos1 + len' in
          let '(r, runs) := paint_loop text rest renderPos2 in
          (r, plain :: strong :: runs)
      end
  end.

(** Result of [paint]: either the name was empty (an error is logged and
    nothing is drawn) or the runs drawn. *)
Inductive painted :=
| EmptyTopicName
| Drawn (runs : list run).

Definition runs_of (p : painted) : list run :=
  match p with
  | EmptyTopicName => []
  | Drawn runs => runs
  end.

(** The last [drawText] of [paint]: the text that remains after the
    loop, if any. *)
Definition remaining (text : list ascii) (renderPos : nat) : list run :=
  if renderPos <? length text
  then [mkRun Regular renderPos (length text - renderPos)
          (drop renderPos text)]
  else [].

(** The text part of [ItemDelegate::paint], for the search of the model and
    the display name of the item. *)
Definition paint (search topicName : list ascii) : option painted :=
  match topicName with
  | [] => Some EmptyTopicName
  | _ :: _ =>
      let text := topicName in
      match bold_of search text with
      | None => None
      | Some bold =>
          let '(renderPos, runs) := paint_loop text bold 0 in
          Some (Drawn (runs ++ remaining text renderPos))
      end
  end.

(** The emphasized spans among the runs: start and length. *)
Definition spans (runs : list run) : list (nat * nat) :=
  omap (λ r, match rfont r with
             | Bold => Some (rpos r, rlen r)
             | Regular => None
             end) runs.

(** The text drawn, from left to right. *)
Definition drawn_text (runs : list run) : list ascii :=
  concat (map rtext runs).


(** Keys of a bold map increase strictly, from [lo] on. *)
Fixpoint bold_wf (lo : nat) (bold : bold_map) : Prop :=
  match bold with
  | [] => True
  | (k, _) :: rest => lo ≤ k ∧ bold_wf (S k) rest
  end.

(** The longest length among [acc] and the words written at [pos]. *)
Fixpoint best_length (text : list ascii) (pos : nat)
    (words : list (list ascii)) (acc : option nat) : option nat :=
  match words with
  | [] => acc
  | w :: rest =>
      best_length text pos rest
        (if Str.starts_with w (drop pos text)
         then Some (Nat.max (default 0 acc) (length w)) else acc)
  end.




End ItemDelegate.

Definition s2l (s : string) : list ascii := list_ascii_of_string s.

(** Notions used to state further properties of the plugin. *)
Module Props.
Import TopicsStats.

(** The mutex is never taken while held nor released while free. *)
Fixpoint well_locked (held : bool) (tr : list event) : bool :=
  match tr with
  | [] => true
  | EvLock :: rest => negb held && well_locked true rest
  | EvUnlock :: rest => held && well_locked false rest
  | _ :: rest => well_locked held rest
  end.

(** The three counters of an entry are values of a [uint64_t]. *)
Definition in_range (s : BasicStats) : Prop :=
  (0 ≤ numMessages s < 2 ^ 64)%Z ∧
  (0 ≤ numMessagesLastSec s < 2 ^ 64)%Z ∧
  (0 ≤ numBytesLastSec s < 2 ^ 64)%Z.

(** Sum of the sizes of a list of messages. *)
Definition total_bytes (sizes : list Z) : Z := foldr Z.add 0%Z sizes.

End Props.

(** Notions used to state further properties of [paint]. *)
Module PaintProps.
Import ItemDelegate.

(** The runs lie one after the other from offset [pos] to offset [stop]:
    each run starts where the previous one ended, asks [substr] for a
    part that lies inside the text, and draws exactly that part. *)
Fixpoint tiles (text : list ascii) (pos : nat) (runs : list run)
    (stop : nat) : Prop :=
  match runs with
  | [] => pos = stop
  | r :: rest =>
      rpos r = pos ∧ rpos r + rlen r ≤ length text ∧
      rtext r = Str.substr text (rpos r) (rlen r) ∧
      length (rtext r) = rlen r ∧
      tiles text (pos + rlen r) rest stop
  end.

End PaintProps.

(** [SearchModel::headerData]. *)
Module Header.

Inductive Orientation := Horizontal | Vertical.

(** A [QVariant] that is invalid or holds a [QString]. *)
Inductive QVariant :=
| QInvalid
| QText (text : string).

(** [Qt::DisplayRole]. *)
Definition DisplayRole : Z := 0.

(** [SearchModel::headerData]: the value returned and what is printed on
    [cerr]. *)
Definition headerData (_section : Z) (_orientation : Orientation) (_role : Z)
    : QVariant * list string :=
  if (_role =? DisplayRole)%Z then
    match _orientation with
    | Horizontal =>
        match _section with
        | 0%Z => (QText "Topic", [])
        | 1%Z => (QText "Num messages", [])
        | 2%Z => (QText "Frequency", [])
        | 3%Z => (QText "Bandwidth", [])
        | _ => (QText EmptyString, ["Something went wrong parsing headers"])
        end
    | Vertical => (QInvalid, [])
    end
  else (QInvalid, []).

End Header.

(** [ItemModel::mimeData]. *)
Module ItemModel.

(** A [QModelIndex] of the selection: whether it is valid and the string
    that the model holds for it under the role [URI_QUERY]. *)
Record QModelIndex := mkIndex {
  isValid : bool;
  uriQuery : list ascii
}.

(** [text.toLatin1().data()] read as a C string by the [QByteArray] that
    [setData] receives: the bytes before the first 0. *)
Fixpoint c_str (text : list ascii) : list ascii :=
  match text with
  | [] => []
  | ch :: rest => if Ascii.eqb ch Ascii.zero then [] else ch :: c_str rest
  end.

(** [ItemModel::mimeData]: the data stored under "application/x-item" in
    the [QMimeData] returned, [None] when nothing is stored. *)
Fixpoint mimeData (_indexes : list QModelIndex) : option (list ascii) :=
  match _indexes with
  | [] => None
  | idx :: rest =>
      if isValid idx then Some (c_str (uriQuery idx)) else mimeData rest
  end.

End ItemModel.

(** [DisplayPlugin] (the rendering engine and its scenes are outside). *)
Module DisplayPlugin.

(** The plugin element of the configuration: the text of its "engine"
    and "scene" children, when present. *)
Record XMLElement := mkElement {
  engineText : option string;
  sceneText : option string
}.

(** What the rendering library answers: whether [rendering::engine(name)]
    is not null and whether [SceneByName] of that engine is not null. *)
Record Rendering := mkRendering {
  has_engine : string → bool;
  has_scene : string → string → bool
}.

(** [DisplayPluginPrivate] and the title of the plugin. The engine is
    represented by its name, a visual by the engine and scene that
    created it. *)
Record DisplayPluginPrivate := mkDisplay {
  title : string;
  engine : option string;
  sceneName : string;
  visual : option (string * string);
  visible : bool
}.

(** State built by the constructor. *)
Definition constructed : DisplayPluginPrivate :=
  mkDisplay EmptyString None "scene" None true.

(** What [LoadConfig] leaves in the widget. *)
Inductive layout :=
| NoWidgets
| ErrorMessage (msg : string)
| Initialized.

Definition quote : string := String (ascii_of_nat 34) EmptyString.

Definition engine_error (engineName : string) : string :=
  "Engine " +:+ quote +:+ engineName +:+ quote
    +:+ " not supported, DisplayPlugin plugin won't work.".

Definition scene_error (sceneName : string) : string :=
  "Scene " +:+ quote +:+ sceneName +:+ quote
    +:+ " not found, DisplayPlugin plugin won't work.".

(** [DisplayPlugin::LoadConfig]: the new state, the warnings logged and
    the layout; [deleteLater] is [DeleteLaterRequested()]. *)
Definition LoadConfig (env : Rendering) (_pluginElem : option XMLElement)
    (deleteLater : bool) (d : DisplayPluginPrivate)
    : DisplayPluginPrivate * list string * layout :=
  let engineName :=
    match _pluginElem with
    | Some elem => match engineText elem with Some e => e | None => "ogre" end
    | None => "ogre"
    end in
  let sceneName' :=
    match _pluginElem with
    | Some elem => match sceneText elem with Some n => n | None => sceneName d end
    | None => sceneName d
    end in
  let '(engine', visual', error) :=
    if has_engine env engineName then
      if has_scene env engineName sceneName'
      then (Some engineName, Some (engineName, sceneName'), EmptyString)
      else (Some engineName, visual d, scene_error sceneName')
    else (None, visual d, engine_error engineName) in
  let warnings :=
    match error with EmptyString => [] | _ => [error] end in
  let d' := mkDisplay "Unnamed display" engine' sceneName' visual' (visible d) in
  if deleteLater then (d', warnings, NoWidgets)
  else match error with
       | EmptyString => (d', warnings, Initialized)
       | _ => (d', warnings, ErrorMessage error)
       end.

(** Result of [DisplayPlugin::Scene]: the engine pointer is dereferenced
    without a check. *)
Inductive scene_result :=
| NullEngine
| SceneFound (engineName sceneName : string)
| NoScene.

(** [DisplayPlugin::Scene]. *)
Definition Scene (env : Rendering) (d : DisplayPluginPrivate) : scene_result :=
  match engine d with
  | None => NullEngine
  | Some e =>
      if has_scene env e (sceneName d) then SceneFound e (sceneName d)
      else NoScene
  end.

(** [DisplayPlugin::Visual]. *)
Definition Visual (d : DisplayPluginPrivate) : option (string * string) :=
  visual d.

(** [DisplayPlugin::OnVisibilityChange]. *)
Definition OnVisibilityChange (_value : bool) (d : DisplayPluginPrivate)
    : DisplayPluginPrivate :=
  mkDisplay (title d) (engine d) (sceneName d) (visual d) _value.

(** The engine name and the scene name that [LoadConfig] looks up. *)
Definition chosen_engine (elem : option XMLElement) : string :=
  match elem with
  | Some e => match engineText e with Some n => n | None => "ogre" end
  | None => "ogre"
  end.

Definition chosen_scene (elem : option XMLElement)
    (d : DisplayPluginPrivate) : string :=
  match elem with
  | Some e => match sceneText e with Some n => n | None => sceneName d end
  | None => sceneName d
  end.

End DisplayPlugin.

(** ** The statistics store *)

Section StatsStore.
Import TopicsStats.

Implicit Types (m : gmap string BasicStats) (d : TopicsStatsPrivate)
  (t topic : string) (topics prev : list string).

Lemma ResetStats_lookup m t :
  ResetStats m !! t = (λ s, mkBasicStats (numMessages s) 0 0) <$> (m !! t).
Proof. unfold ResetStats. apply lookup_fmap. Qed.

Lemma ResetStats_dom m : dom (ResetStats m) = dom m.
Proof. unfold ResetStats. apply dom_fmap_L. Qed.

Lemma OnMessage_prevTopics topic byteSize d :
  prevTopics (OnMessage topic byteSize d).1 = prevTopics d.
Proof. unfold OnMessage. by destruct (stats d !! topic). Qed.

Lemma OnMessage_dom topic byteSize d :
  dom (stats (OnMessage topic byteSize d).1) = dom (stats d).
Proof.
  unfold OnMessage. destruct (stats d !! topic) as [s|] eqn:E; simpl; [|done].
  rewrite dom_insert_L. apply elem_of_dom_2 in E.
  apply subseteq_union_1_L. by apply singleton_subseteq_l.
Qed.

Lemma OnMessage_other topic byteSize d t :
  topic ≠ t → stats (OnMessage topic byteSize d).1 !! t = stats d !! t.
Proof.
  intros Hne. unfold OnMessage. destruct (stats d !! topic); simpl; [|done].
  apply lookup_insert_ne. exact Hne.
Qed.

Lemma wrap64_small x : (0 ≤ x < 2 ^ 64)%Z → wrap64 x = x.
Proof. intros H. unfold wrap64. apply Z.mod_small. exact H. Qed.

Lemma bandwidth_units_B (b : Z) :
  (b < 1000)%Z → bandwidth_units b = (inject_Z b, "B/s").
Proof.
  intros H. unfold bandwidth_units.
  destruct (Qle_bool 1000 (inject_Z b)) eqn:E; [|done].
  apply Qle_bool_iff in E. change 1000%Q with (inject_Z 1000) in E.
  rewrite <- Zle_Qle in E. lia.
Qed.

Lemma bandwidth_units_KB (b : Z) :
  (1000 ≤ b < 1000000)%Z → bandwidth_units b = ((inject_Z b / 1000)%Q, "KB/s").
Proof.
  intros [H1 H2]. unfold bandwidth_units.
  destruct (Qle_bool 1000 (inject_Z b)) eqn:E.
  - destruct (Qle_bool 1000000 (inject_Z b)) eqn:E'; [|done].
    apply Qle_bool_iff in E'. change 1000000%Q with (inject_Z 1000000) in E'.
    rewrite <- Zle_Qle in E'. lia.
  - assert (Qle_bool 1000 (inject_Z b) = true) as E'; [|congruence].
    apply Qle_bool_iff. change 1000%Q with (inject_Z 1000). by rewrite <- Zle_Qle.
Qed.

Lemma bandwidth_units_MB (b : Z) :
  (1000000 ≤ b)%Z → bandwidth_units b = ((inject_Z b / 1000000)%Q, "MB/s").
Proof.
  intros H. unfold bandwidth_units.
  assert (Qle_bool 1000 (inject_Z b) = true) as ->.
  { apply Qle_bool_iff. change 1000%Q with (inject_Z 1000). rewrite <- Zle_Qle. lia. }
  assert (Qle_bool 1000000 (inject_Z b) = true) as ->; [|done].
  apply Qle_bool_iff. change 1000000%Q with (inject_Z 1000000). by rewrite <- Zle_Qle.
Qed.

Lemma UpdateGUIStats_lookup m t :
  UpdateGUIStats m !! t = gui_row_of <$> (m !! t).
Proof. unfold UpdateGUIStats. apply lookup_fmap. Qed.

(** C8. [ResetStats] keeps the set of tracked topics and, in every entry,
    sets the two counters of the last second to 0 and keeps the total
    number of messages. *)
Theorem ResetStats_zeroes_windows m :
  dom (ResetStats m) = dom m ∧
  ∀ t s, m !! t = Some s →
    ∃ s', ResetStats m !! t = Some s' ∧
          numMessagesLastSec s' = 0%Z ∧ numBytesLastSec s' = 0%Z ∧
          numMessages s' = numMessages s.
Proof.
  split; [apply ResetStats_dom|].
  intros t s Hs. rewrite ResetStats_lookup, Hs. simpl. eauto.
Qed.

Lemma ResetStats_zeroes_windows_witness :
  ∃ s', ResetStats {[ "/chatter" := mkBasicStats 7 3 1500 ]} !! "/chatter" = Some s' ∧
        numMessagesLastSec s' = 0%Z ∧ numBytesLastSec s' = 0%Z ∧
        numMessages s' = 7%Z.
Proof.
  apply (proj2 (ResetStats_zeroes_windows {[ "/chatter" := mkBasicStats 7 3 1500 ]})
           "/chatter" (mkBasicStats 7 3 1500)).
  vm_compute. reflexivity.
Defined.

(** C9. A message for a topic without statistics leaves the whole state
    unchanged and only prints the anomaly on [cerr]; for a tracked topic
    the total and the last-second message counters are incremented by 1
    and the last-second byte counter by the size, in [uint64_t]
    arithmetic (so literally by 1 and by the size below [2^64]). *)
Theorem OnMessage_record topic byteSize d :
  (stats d !! topic = None →
     OnMessage topic byteSize d =
       (d, [EvLock; EvCerr ("Unable to find stats for [" +:+ topic +:+ "]");
            EvUnlock])) ∧
  (∀ s, stats d !! topic = Some s →
     ∃ s', stats (OnMessage topic byteSize d).1 !! topic = Some s' ∧
       (OnMessage topic byteSize d).2 = [EvLock; EvUnlock] ∧
       numMessages s' = wrap64 (numMessages s + 1) ∧
       numMessagesLastSec s' = wrap64 (numMessagesLastSec s + 1) ∧
       numBytesLastSec s' = wrap64 (numBytesLastSec s + byteSize) ∧
       ((0 ≤ numMessages s + 1 < 2 ^ 64)%Z →
          numMessages s' = (numMessages s + 1)%Z) ∧
       ((0 ≤ numMessagesLastSec s + 1 < 2 ^ 64)%Z →
          numMessagesLastSec s' = (numMessagesLastSec s + 1)%Z) ∧
       ((0 ≤ numBytesLastSec s + byteSize < 2 ^ 64)%Z →
          numBytesLastSec s' = (numBytesLastSec s + byteSize)%Z)).
Proof.
  split.
  - intros Hnone. unfold OnMessage. by rewrite Hnone.
  - intros s Hs. unfold OnMessage. rewrite Hs. simpl.
    rewrite lookup_insert_eq. eexists. split; [reflexivity|]. simpl.
    repeat split; auto using wrap64_small.
Qed.

Lemma OnMessage_record_witness :
  OnMessage "/gone" 12 (mkPrivate ["/chatter"] {[ "/chatter" := mkBasicStats 7 3 1500 ]})
  = (mkPrivate ["/chatter"] {[ "/chatter" := mkBasicStats 7 3 1500 ]},
     [EvLock; EvCerr "Unable to find stats for [/gone]"; EvUnlock]).
Proof.
  apply (proj1 (OnMessage_record "/gone" 12
           (mkPrivate ["/chatter"] {[ "/chatter" := mkBasicStats 7 3 1500 ]}))).
  vm_compute. reflexivity.
Defined.

(** C10. A message for topic [X] leaves the statistics of every other
    topic [Y] as they were, and no message, recorded or orphan, changes
    the set of tracked topics (nor the list of previous topics). *)
Theorem OnMessage_frame X byteSize d :
  (∀ Y, X ≠ Y → stats (OnMessage X byteSize d).1 !! Y = stats d !! Y) ∧
  dom (stats (OnMessage X byteSize d).1) = dom (stats d) ∧
  prevTopics (OnMessage X byteSize d).1 = prevTopics d.
Proof.
  split; [|split].
  - intros Y HY. by apply OnMessage_other.
  - apply OnMessage_dom.
  - apply OnMessage_prevTopics.
Qed.

Lemma OnMessage_frame_witness :
  stats (OnMessage "/a" 10
           (mkPrivate ["/a"; "/b"]
              {[ "/a" := mkBasicStats 1 1 8; "/b" := mkBasicStats 4 2 64 ]})).1 !! "/b"
  = Some (mkBasicStats 4 2 64).
Proof.
  rewrite (proj1 (OnMessage_frame "/a" 10
             (mkPrivate ["/a"; "/b"]
                {[ "/a" := mkBasicStats 1 1 8; "/b" := mkBasicStats 4 2 64 ]})) "/b").
  - vm_compute. reflexivity.
  - vm_compute. discriminate.
Defined.



End StatsStore.

(** ** The reconcile cycle *)

Section Reconcile.
Import TopicsStats.

Implicit Types (m : gmap string BasicStats) (d : TopicsStatsPrivate)
  (t topic : string) (topics prev : list string) (c : cycle)
  (tr : list event) (ins : list input).

Local Ltac mem :=
  repeat match goal with
         | H : context [_ ∈ (_ :: _)] |- _ => rewrite elem_of_cons in H
         end;
  rewrite ?elem_of_cons; intuition congruence.

Lemma remove_expired_lookup topics prev m t :
  (remove_expired topics prev m).1 !! t =
    if bool_decide (t ∈ prev ∧ t ∉ topics) then None else m !! t.
Proof.
  revert m. induction prev as [|p prev IH]; intros m; cbn [remove_expired].
  - cbn [fst]. case_bool_decide as H; [|done].
    destruct H as [H _]. by apply elem_of_nil in H.
  - destruct (bool_decide (p ∈ topics)) eqn:Hp;
      [apply bool_decide_eq_true in Hp|apply bool_decide_eq_false in Hp].
    + rewrite IH. repeat case_bool_decide; try done; exfalso; mem.
    + pose proof (IH (delete p m)) as IH'.
      destruct (remove_expired topics prev (delete p m)) as [m' tr'].
      cbn [fst] in *. rewrite IH'. destruct (decide (t = p)) as [->|Hne].
      * rewrite lookup_delete_eq.
        rewrite (bool_decide_eq_true_2 (p ∈ (p :: prev) ∧ p ∉ topics)).
        -- by case_bool_decide.
        -- split; [apply elem_of_cons; by left|done].
      * rewrite lookup_delete_ne by done.
        repeat case_bool_decide; try done; exfalso; mem.
Qed.

Lemma remove_expired_trace topics prev m :
  (remove_expired topics prev m).2 =
    EvUnsubscribe <$> filter (λ t, t ∉ topics) prev.
Proof.
  revert m. induction prev as [|p prev IH]; intros m; cbn [remove_expired]; [done|].
  destruct (bool_decide (p ∈ topics)) eqn:Hp;
    [apply bool_decide_eq_true in Hp|apply bool_decide_eq_false in Hp].
  - rewrite filter_cons_False by (intros H; by apply H). apply IH.
  - pose proof (IH (delete p m)) as IH'.
    destruct (remove_expired topics prev (delete p m)) as [m' tr'].
    rewrite filter_cons_True by done. cbn [snd] in *. by rewrite IH'.
Qed.

Lemma add_new_lookup sub prev topics m t :
  (add_new sub prev topics m).1 !! t =
    if bool_decide (t ∈ topics ∧ (t ∉ prev) ∧ sub t = true)
    then Some BasicStats_new else m !! t.
Proof.
  revert m. induction topics as [|p topics IH]; intros m; cbn [add_new].
  - cbn [fst]. case_bool_decide as H; [|done].
    destruct H as [H _]. by apply elem_of_nil in H.
  - destruct (bool_decide (p ∈ prev)) eqn:Hp;
      [apply bool_decide_eq_true in Hp|apply bool_decide_eq_false in Hp].
    + rewrite IH. repeat case_bool_decide; try done; exfalso; mem.
    + destruct (sub p) eqn:Hsub.
      * pose proof (IH (<[p:=BasicStats_new]> m)) as IH'.
        destruct (add_new sub prev topics (<[p:=BasicStats_new]> m)) as [m' tr'].
        cbn [fst] in *. rewrite IH'. destruct (decide (t = p)) as [->|Hne].
        -- rewrite lookup_insert_eq.
           rewrite (bool_decide_eq_true_2 (p ∈ (p :: topics) ∧ (p ∉ prev) ∧ sub p = true)).
           ++ by case_bool_decide.
           ++ split; [apply elem_of_cons; by left|done].
        -- rewrite lookup_insert_ne by done.
           repeat case_bool_decide; try done; exfalso; mem.
      * pose proof (IH m) as IH'.
        destruct (add_new sub prev topics m) as [m' tr'].
        cbn [fst] in *. rewrite IH'.
        repeat case_bool_decide; try done; exfalso; mem.
Qed.

Lemma add_new_trace sub prev topics m :
  (add_new sub prev topics m).2 = topics ≫= add_calls sub prev.
Proof.
  revert m. induction topics as [|p topics IH]; intros m; cbn [add_new]; [done|].
  rewrite bind_cons. unfold add_calls at 1.
  destruct (bool_decide (p ∈ prev)) eqn:Hp;
    [apply bool_decide_eq_true in Hp|apply bool_decide_eq_false in Hp].
  - apply IH.
  - destruct (sub p) eqn:Hsub.
    + pose proof (IH (<[p:=BasicStats_new]> m)) as IH'.
      destruct (add_new sub prev topics (<[p:=BasicStats_new]> m)) as [m' tr'].
      cbn [snd] in *. by rewrite IH'.
    + pose proof (IH m) as IH'.
      destruct (add_new sub prev topics m) as [m' tr'].
      cbn [snd] in *. by rewrite IH'.
Qed.

(** [FillTopics] in closed form. *)
Lemma FillTopics_eq c d :
  FillTopics c d =
    let m1 := (remove_expired (listed c) (prevTopics d) (stats d)).1 in
    let m2 := (add_new (subscribe c) (prevTopics d) (listed c) m1).1 in
    (mkPrivate (listed c) (ResetStats m2),
     EvTopicList (listed c) :: EvLock ::
       (EvUnsubscribe <$> filter (λ t, t ∉ listed c) (prevTopics d)) ++
       (listed c ≫= add_calls (subscribe c) (prevTopics d)) ++
       [EvGui (UpdateGUIStats m2); EvUnlock]).
Proof.
  unfold FillTopics.
  pose proof (remove_expired_trace (listed c) (prevTopics d) (stats d)) as H1.
  destruct (remove_expired (listed c) (prevTopics d) (stats d)) as [m1 tr1].
  cbn [fst snd] in *.
  pose proof (add_new_trace (subscribe c) (prevTopics d) (listed c) m1) as H2.
  destruct (add_new (subscribe c) (prevTopics d) (listed c) m1) as [m2 tr2].
  cbn [fst snd] in *. by rewrite H1, H2.
Qed.

Lemma FillTopics_prevTopics c d : prevTopics (FillTopics c d).1 = listed c.
Proof. by rewrite FillTopics_eq. Qed.

Lemma FillTopics_is_Some c d t :
  is_Some (stats (FillTopics c d).1 !! t) ↔
    (t ∈ listed c ∧ (t ∉ prevTopics d) ∧ subscribe c t = true) ∨
    (¬ (t ∈ prevTopics d ∧ t ∉ listed c) ∧ is_Some (stats d !! t)).
Proof.
  rewrite FillTopics_eq. simpl. rewrite ResetStats_lookup, fmap_is_Some.
  rewrite add_new_lookup, remove_expired_lookup.
  repeat case_bool_decide; split; intros HS.
  - by left.
  - by eexists.
  - by destruct HS as [? ?].
  - tauto.
  - right. tauto.
  - tauto.
Qed.

Lemma FillTopics_subscribe_event c d t ok :
  EvSubscribe t ok ∈ (FillTopics c d).2 ↔
    t ∈ listed c ∧ (t ∉ prevTopics d) ∧ ok = subscribe c t.
Proof.
  rewrite FillTopics_eq. cbn [snd].
  rewrite !elem_of_cons, !elem_of_app, list_elem_of_fmap, list_elem_of_bind.
  rewrite !elem_of_cons, elem_of_nil. split.
  - intros [H|[H|[H|[H|H]]]]; try discriminate.
    + destruct H as (y & H & _). discriminate.
    + destruct H as (p & Hc & Hp). unfold add_calls in Hc.
      case_bool_decide as Hprev; [by apply elem_of_nil in Hc|].
      destruct (subscribe c p) eqn:Hsub;
        rewrite ?elem_of_cons, elem_of_nil in Hc.
      * destruct Hc as [Hc|[]]. by simplify_eq.
      * destruct Hc as [Hc|[Hc|[]]]; [|discriminate]. by simplify_eq.
    + destruct H as [H|[H|[]]]; discriminate.
  - intros (Hin & Hprev & ->). do 3 right. left. exists t. split; [|done].
    unfold add_calls. rewrite bool_decide_eq_false_2 by done.
    destruct (subscribe c t); apply elem_of_cons; by left.
Qed.

Lemma FillTopics_cerr_event c d t :
  t ∈ listed c → t ∉ prevTopics d → subscribe c t = false →
  EvCerr ("Error subscribing to [" +:+ t +:+ "]") ∈ (FillTopics c d).2.
Proof.
  intros Hin Hprev Hsub. rewrite FillTopics_eq. cbn [snd].
  rewrite !elem_of_cons, !elem_of_app, list_elem_of_bind.
  do 3 right. left. exists t. split; [|done].
  unfold add_calls. rewrite bool_decide_eq_false_2 by done. rewrite Hsub.
  apply elem_of_cons. right. apply elem_of_cons. by left.
Qed.

Lemma lock_held_cons h e tr :
  lock_held h (e :: tr) = lock_held (lock_held h [e]) tr.
Proof. by destruct e. Qed.

Lemma calls_locked_sound h tr pre e post :
  calls_locked h tr = true → tr = pre ++ e :: post →
  is_bus_call e = true → lock_held h pre = true.
Proof.
  revert h tr. induction pre as [|x pre IH]; intros h tr Hc -> He.
  - cbn in Hc. rewrite He in Hc. by apply andb_prop in Hc as [-> _].
  - cbn [app calls_locked] in Hc. apply andb_prop in Hc as [_ Hc].
    rewrite lock_held_cons. by eapply IH.
Qed.

Lemma calls_locked_app body rest :
  Forall (λ e, is_lock_event e = false) body →
  calls_locked true (body ++ rest) = calls_locked true rest.
Proof.
  induction 1 as [|e body He _ IH]; [done|].
  cbn [app calls_locked]. destruct e; try discriminate; cbn; exact IH.
Qed.

Lemma add_calls_no_lock sub prev topics :
  Forall (λ e, is_lock_event e = false) (topics ≫= add_calls sub prev).
Proof.
  apply Forall_forall. intros e He. apply list_elem_of_bind in He as (p & He & _).
  unfold add_calls in He. case_bool_decide; [by apply elem_of_nil in He|].
  destruct (sub p); rewrite ?elem_of_cons, elem_of_nil in He;
    intuition (subst; reflexivity).
Qed.

Lemma unsubscribe_no_lock (l : list string) :
  Forall (λ e, is_lock_event e = false) (EvUnsubscribe <$> l).
Proof. apply Forall_fmap, Forall_forall. by intros. Qed.




Lemma run_cons d i ins :
  run d (i :: ins) = ((run (step d i).1 ins).1,
                      (step d i).2 ++ (run (step d i).1 ins).2).
Proof.
  cbn [run]. destruct (step d i) as [d1 tr1]. cbn [fst snd].
  by destruct (run d1 ins) as [d2 tr2].
Qed.

Lemma step_tracked_within d i : tracked_within d → tracked_within (step d i).1.
Proof.
  unfold tracked_within. intros Hd. destruct i as [c|topic sz]; cbn [step].
  - rewrite FillTopics_prevTopics. intros t Ht.
    apply elem_of_dom, FillTopics_is_Some in Ht. apply elem_of_list_to_set.
    destruct Ht as [[Ht _]|[Hrm Hs]]; [done|].
    apply elem_of_dom, Hd, elem_of_list_to_set in Hs.
    destruct (decide (t ∈ listed c)); [done|tauto].
  - by rewrite OnMessage_dom, OnMessage_prevTopics.
Qed.







Lemma step_shelved t d i :
  (∀ c, i = Tick c → t ∈ listed c) → shelved t d →
  (∀ ok, EvSubscribe t ok ∉ (step d i).2) ∧ shelved t (step d i).1.
Proof.
  intros Hi [Hprev Hnone]. destruct i as [c|topic sz]; cbn [step].
  - split; [|split].
    + intros ok Hev. apply FillTopics_subscribe_event in Hev. tauto.
    + rewrite FillTopics_prevTopics. by apply Hi.
    + apply eq_None_not_Some. rewrite FillTopics_is_Some.
      rewrite Hnone. intros [H|[_ H]]; [tauto|by destruct H].
  - split; [|split].
    + intros ok Hev. unfold OnMessage in Hev.
      destruct (stats d !! topic); cbn [snd] in Hev;
        rewrite !elem_of_cons, elem_of_nil in Hev;
        intuition discriminate.
    + by rewrite OnMessage_prevTopics.
    + destruct (decide (topic = t)) as [->|Hne].
      * unfold OnMessage. by rewrite Hnone.
      * by rewrite OnMessage_other.
Qed.

Lemma run_shelved t ins d :
  (∀ c, Tick c ∈ ins → t ∈ listed c) → shelved t d →
  (∀ ok, EvSubscribe t ok ∉ (run d ins).2) ∧ shelved t (run d ins).1.
Proof.
  revert d. induction ins as [|i ins IH]; intros d Hins Hd.
  - split; [|done]. intros ok H. by apply elem_of_nil in H.
  - rewrite run_cons. cbn [fst snd].
    destruct (step_shelved t d i) as [Hno Hd1]; [|done|].
    { intros c ->. apply Hins, elem_of_cons. by left. }
    destruct (IH (step d i).1) as [Hno' Hd2]; [|done|].
    { intros c Hc. apply Hins, elem_of_cons. by right. }
    split; [|done]. intros ok Hev. apply elem_of_app in Hev as [Hev|Hev].
    + by apply (Hno ok).
    + by apply (Hno' ok).
Qed.

(** C1, as amended. When [Subscribe] fails for a listed topic that is
    new and has no statistics, the failure is printed and no statistics
    are created in this cycle; the topic is then a previous topic, so as
    long as every later cycle lists it, no later cycle calls [Subscribe]
    for it and it never gets statistics. *)
Theorem failed_subscribe_is_never_retried c d t :
  t ∈ listed c → t ∉ prevTopics d → stats d !! t = None →
  subscribe c t = false →
  let d1 := (FillTopics c d).1 in
  (EvSubscribe t false ∈ (FillTopics c d).2 ∧
   EvCerr ("Error subscribing to [" +:+ t +:+ "]") ∈ (FillTopics c d).2 ∧
   stats d1 !! t = None ∧ t ∈ prevTopics d1) ∧
  ∀ ins, (∀ c', Tick c' ∈ ins → t ∈ listed c') →
    (∀ ok, EvSubscribe t ok ∉ (run d1 ins).2) ∧
    stats (run d1 ins).1 !! t = None.
Proof.
  intros Hin Hprev Hnone Hsub d1.
  assert (shelved t d1) as Hd1.
  { split.
    - unfold d1. by rewrite FillTopics_prevTopics.
    - apply eq_None_not_Some. unfold d1. rewrite FillTopics_is_Some, Hnone, Hsub.
      intros [(_ & _ & ?)|[_ H]]; [discriminate|by destruct H]. }
  split.
  - split; [|split; [|split]].
    + apply FillTopics_subscribe_event. by rewrite Hsub.
    + by apply FillTopics_cerr_event.
    + apply Hd1.
    + apply Hd1.
  - intros ins Hins. destruct (run_shelved t ins d1 Hins Hd1) as [Hno [_ Hs]].
    by split.
Qed.

Lemma failed_subscribe_is_never_retried_witness :
  (EvSubscribe "/a" true ∉
    (run (FillTopics (mkCycle ["/a"] (λ _, false)) initial).1
         [Tick (mkCycle ["/a"; "/b"] (λ _, true)); Message "/a" 8;
          Tick (mkCycle ["/b"; "/a"] (λ _, true))]).2) ∧
  stats (run (FillTopics (mkCycle ["/a"] (λ _, false)) initial).1
           [Tick (mkCycle ["/a"; "/b"] (λ _, true)); Message "/a" 8;
            Tick (mkCycle ["/b"; "/a"] (λ _, true))]).1 !! "/a" = None.
Proof.
  destruct (failed_subscribe_is_never_retried
              (mkCycle ["/a"] (λ _, false)) initial "/a") as [_ Hlater].
  - vm_compute. apply list_elem_of_here.
  - vm_compute. apply not_elem_of_nil.
  - vm_compute. reflexivity.
  - vm_compute. reflexivity.
  - destruct (Hlater [Tick (mkCycle ["/a"; "/b"] (λ _, true)); Message "/a" 8;
                      Tick (mkCycle ["/b"; "/a"] (λ _, true))]) as [Hno Hnone].
    + intros c' Hc'. rewrite !elem_of_cons, elem_of_nil in Hc'.
      destruct Hc' as [Hc'|[Hc'|[Hc'|[]]]]; [| discriminate |];
        injection Hc' as ->; cbn [listed]; rewrite !elem_of_cons; tauto.
    + split; [apply Hno|exact Hnone].
Defined.

(** C1, as stated, fails: after a failed [Subscribe] for a topic, the next
    cycle that lists it again makes no [Subscribe] call for it. *)
Lemma failed_subscribe_retry_counterexample :
  ¬ (∀ c1 c2 d t,
       t ∈ listed c1 → t ∉ prevTopics d → stats d !! t = None →
       subscribe c1 t = false → t ∈ listed c2 →
       ∃ ok, EvSubscribe t ok ∈ (FillTopics c2 (FillTopics c1 d).1).2).
Proof.
  intros H.
  destruct (H (mkCycle ["/a"] (λ _, false)) (mkCycle ["/a"] (λ _, true))
              initial "/a") as [ok Hev].
  - apply list_elem_of_here.
  - apply not_elem_of_nil.
  - reflexivity.
  - reflexivity.
  - apply list_elem_of_here.
  - apply FillTopics_subscribe_event in Hev as (_ & Hprev & _).
    apply Hprev. rewrite FillTopics_prevTopics. apply list_elem_of_here.
Qed.



(** C3, as amended. A reconcile cycle asks for the topic list, then takes
    the mutex once and releases it at the very end: every [Subscribe] and
    [Unsubscribe] call of the cycle is made while the mutex is held. *)
Theorem FillTopics_calls_inside_lock c d :
  (∃ body, (FillTopics c d).2 =
             EvTopicList (listed c) :: EvLock :: body ++ [EvUnlock] ∧
           Forall (λ e, is_lock_event e = false) body) ∧
  (∀ pre e post, (FillTopics c d).2 = pre ++ e :: post →
     is_bus_call e = true → lock_held false pre = true).
Proof.
  split.
  - rewrite FillTopics_eq. cbn [snd]. set (rows := UpdateGUIStats _).
    exists ((EvUnsubscribe <$> filter (λ t, t ∉ listed c) (prevTopics d)) ++
            (listed c ≫= add_calls (subscribe c) (prevTopics d)) ++
            [EvGui rows]).
    split.
    + by rewrite <- !app_assoc.
    + rewrite !Forall_app. split; [apply unsubscribe_no_lock|].
      split; [apply add_calls_no_lock|]. by repeat constructor.
  - intros pre e post Htr He. eapply calls_locked_sound; [|exact Htr|exact He].
    rewrite FillTopics_eq. cbn [snd calls_locked is_bus_call lock_held andb].
    rewrite calls_locked_app by apply unsubscribe_no_lock.
    by rewrite calls_locked_app by apply add_calls_no_lock.
Qed.

Lemma FillTopics_calls_inside_lock_witness :
  lock_held false [EvTopicList ["/a"]; EvLock] = true.
Proof.
  apply (proj2 (FillTopics_calls_inside_lock (mkCycle ["/a"] (λ _, true)) initial)
           [EvTopicList ["/a"]; EvLock] (EvSubscribe "/a" true)
           (drop 3 (FillTopics (mkCycle ["/a"] (λ _, true)) initial).2)).
  - vm_compute. reflexivity.
  - reflexivity.
Defined.

(** C3, as stated, fails: in a cycle that discovers a topic, [Subscribe]
    is called after the mutex was taken and before it is released. *)
Lemma FillTopics_calls_outside_lock_counterexample :
  ¬ (∀ c d pre e post, (FillTopics c d).2 = pre ++ e :: post →
       is_bus_call e = true → lock_held false pre = false).
Proof.
  intros H.
  specialize (H (mkCycle ["/a"] (λ _, true)) initial
                [EvTopicList ["/a"]; EvLock] (EvSubscribe "/a" true)
                (drop 3 (FillTopics (mkCycle ["/a"] (λ _, true)) initial).2)).
  assert (true = false) as Habs; [|discriminate].
  apply H; [vm_compute; reflexivity|reflexivity].
Qed.




End Reconcile.

(** ** Strings *)

Section Strings.
Import Str.

Implicit Types (c sep : ascii) (s text word w : list ascii)
  (ws : list (list ascii)).

Lemma starts_with_prefix word text :
  starts_with word text = true ↔ ∃ post, text = word ++ post.
Proof.
  revert text. induction word as [|a word IH]; intros text; cbn [starts_with].
  - split; [intros _; by exists text|done].
  - destruct text as [|b text].
    + split; [done|]. by intros [post ?].
    + rewrite andb_true_iff, Ascii.eqb_eq, IH. split.
      * intros [-> [post ->]]. by exists post.
      * intros [post [= -> ->]]. split; [done|]. by exists post.
Qed.

Lemma starts_with_nil word : word ≠ [] → starts_with word [] = false.
Proof. by destruct word. Qed.

Lemma starts_with_length word text :
  starts_with word text = true → length word ≤ length text.
Proof.
  intros [post ->]%starts_with_prefix. rewrite length_app. lia.
Qed.

(** What the scan of [find] returns. *)
Lemma find_at_Some text word pos q :
  find_at text word pos = Some q ↔
    ∃ k, q = pos + k ∧ k ≤ length text ∧
         starts_with word (drop k text) = true ∧
         ∀ j, j < k → starts_with word (drop j text) = false.
Proof.
  revert pos. induction text as [|a text IH]; intros pos; cbn [find_at].
  - destruct (starts_with word []) eqn:E.
    + split.
      * intros [= <-]. exists 0. repeat split; [lia|lia|done|intros; lia].
      * intros (k & -> & Hk & _ & _). cbn in Hk. f_equal. lia.
    + split; [done|]. intros (k & _ & _ & Hk & _).
      rewrite drop_nil in Hk. congruence.
  - destruct (starts_with word (a :: text)) eqn:E.
    + split.
      * intros [= <-]. exists 0. repeat split; [lia|cbn; lia|done|intros; lia].
      * intros (k & -> & _ & _ & Hlt). destruct k as [|k]; [f_equal; lia|].
        specialize (Hlt 0 ltac:(lia)). cbn in Hlt. congruence.
    + rewrite IH. split.
      * intros (k & -> & Hk & Hs & Hlt). exists (S k).
        repeat split; [lia|cbn; lia|done|].
        intros [|j] Hj; [done|]. apply Hlt. lia.
      * intros (k & -> & Hk & Hs & Hlt). destruct k as [|k]; [cbn in Hs; congruence|].
        exists k. repeat split; [lia|cbn in Hk; lia|done|].
        intros j Hj. apply (Hlt (S j)). lia.
Qed.

Lemma find_at_None text word pos :
  find_at text word pos = None ↔
    ∀ j, j ≤ length text → starts_with word (drop j text) = false.
Proof.
  revert pos. induction text as [|a text IH]; intros pos; cbn [find_at].
  - destruct (starts_with word []) eqn:E.
    + split; [done|]. intros H. specialize (H 0 ltac:(done)). cbn in H. congruence.
    + split; [|done]. intros _ j _. by rewrite drop_nil.
  - destruct (starts_with word (a :: text)) eqn:E.
    + split; [done|]. intros H. specialize (H 0 ltac:(lia)). cbn in H. congruence.
    + rewrite IH. split.
      * intros H [|j] Hj; [done|]. apply H. cbn in Hj. lia.
      * intros H j Hj. apply (H (S j)). cbn. lia.
Qed.

Lemma find_Some text word from q :
  find text word from = Some q ↔
    from ≤ q ∧ q ≤ length text ∧
    starts_with word (drop q text) = true ∧
    ∀ j, from ≤ j → j < q → starts_with word (drop j text) = false.
Proof.
  unfold find. destruct (from <=? length text) eqn:E.
  - apply Nat.leb_le in E. rewrite find_at_Some. split.
    + intros (k & -> & Hk & Hs & Hlt). rewrite length_drop in Hk.
      rewrite drop_drop in Hs. repeat split; [lia|lia|done|].
      intros j Hj1 Hj2. specialize (Hlt (j - from) ltac:(lia)).
      rewrite drop_drop in Hlt. by replace (from + (j - from)) with j in Hlt by lia.
    + intros (H1 & H2 & Hs & Hlt). exists (q - from).
      rewrite length_drop, !drop_drop.
      replace (from + (q - from)) with q by lia.
      split; [done|]. split; [lia|]. split; [done|].
      intros j Hj. rewrite drop_drop. apply Hlt; lia.
  - apply Nat.leb_gt in E. split; [done|]. intros (? & ? & _). lia.
Qed.

Lemma find_None text word from :
  word ≠ [] →
  (find text word from = None ↔
     ∀ j, from ≤ j → starts_with word (drop j text) = false).
Proof.
  intros Hw. unfold find. destruct (from <=? length text) eqn:E.
  - apply Nat.leb_le in E. rewrite find_at_None. split.
    + intros H j Hj. destruct (decide (j ≤ length text)) as [Hle|Hgt].
      * specialize (H (j - from)). rewrite length_drop, drop_drop in H.
        replace (from + (j - from)) with j in H by lia. apply H. lia.
      * rewrite drop_ge by lia. by apply starts_with_nil.
    + intros H j Hj. rewrite drop_drop. apply H. lia.
  - apply Nat.leb_gt in E. split; [|done]. intros _ j Hj.
    rewrite drop_ge by lia. by apply starts_with_nil.
Qed.

(** [find] from the start decides whether the word is written in the
    text. *)
Lemma find_infix text word :
  (∃ q, find text word 0 = Some q) ↔ infix_of word text.
Proof.
  split.
  - intros [q (_ & _ & [post Hpost]%starts_with_prefix & _)%find_Some].
    exists (take q text), post. by rewrite <- Hpost, take_drop.
  - intros (pre & post & ->).
    destruct (find (pre ++ word ++ post) word 0) as [q|] eqn:E; [by exists q|].
    exfalso. unfold find in E.
    destruct (0 <=? length (pre ++ word ++ post)) eqn:E0;
      [|apply Nat.leb_gt in E0; lia].
    rewrite drop_0, find_at_None in E.
    specialize (E (length pre)). rewrite drop_app_length in E.
    rewrite length_app in E.
    assert (starts_with word (word ++ post) = true) as Hs
      by (apply starts_with_prefix; by exists post).
    rewrite E in Hs by lia. discriminate.
Qed.

Lemma split_nosep sep w : sep ∉ w → split sep w = [w].
Proof.
  induction w as [|c w IH]; intros Hw; cbn [split]; [done|].
  apply not_elem_of_cons in Hw as [Hc Hw].
  destruct (Ascii.eqb c sep) eqn:E; [apply Ascii.eqb_eq in E; congruence|].
  by rewrite IH.
Qed.

Lemma split_app_sep sep w s :
  sep ∉ w → split sep (w ++ sep :: s) = w :: split sep s.
Proof.
  induction w as [|c w IH]; intros Hw; cbn [split app].
  - by rewrite Ascii.eqb_refl.
  - apply not_elem_of_cons in Hw as [Hc Hw].
    destruct (Ascii.eqb c sep) eqn:E; [apply Ascii.eqb_eq in E; congruence|].
    by rewrite IH.
Qed.

Lemma split_join sep ws :
  ws ≠ [] → Forall (λ w, sep ∉ w) ws → split sep (join sep ws) = ws.
Proof.
  induction ws as [|w ws IH]; intros Hne Hws; [done|].
  apply Forall_cons in Hws as [Hw Hws]. destruct ws as [|w2 ws].
  - by apply split_nosep.
  - change (join sep (w :: w2 :: ws)) with (w ++ sep :: join sep (w2 :: ws)).
    rewrite split_app_sep by done. f_equal. by apply IH.
Qed.

Lemma split_not_nil sep s : split sep s ≠ [].
Proof.
  destruct s as [|c s]; cbn [split]; [done|].
  destruct (Ascii.eqb c sep); [done|]. by destruct (split sep s).
Qed.

Lemma join_split sep s :
  join sep (split sep s) = s ∧ Forall (λ w, sep ∉ w) (split sep s).
Proof.
  induction s as [|c s [IH1 IH2]]; cbn [split].
  - split; [done|]. repeat constructor. apply not_elem_of_nil.
  - pose proof (split_not_nil sep s) as Hne.
    destruct (Ascii.eqb c sep) eqn:E.
    + apply Ascii.eqb_eq in E as ->. split.
      * destruct (split sep s) as [|w ws]; [done|].
        change (join sep ([] :: w :: ws)) with (sep :: join sep (w :: ws)).
        by rewrite IH1.
      * constructor; [apply not_elem_of_nil|done].
    + apply Ascii.eqb_neq in E.
      destruct (split sep s) as [|w ws]; [done|].
      apply Forall_cons in IH2 as [Hw Hws]. split.
      * rewrite <- IH1. by destruct ws.
      * constructor; [|done]. apply not_elem_of_cons. split; [congruence|done].
Qed.


End Strings.

(** ** The row filter *)

Section Filter.
Import Str SearchModel.

Implicit Types (search label word w : list ascii) (ws : list (list ascii)).

Lemma filterAcceptsRowItself_spec label word :
  filterAcceptsRowItself label word = true ↔ ci_substring word label.
Proof.
  unfold filterAcceptsRowItself, ci_substring. rewrite <- find_infix.
  destruct (find (upper label) (upper word) 0) as [q|].
  - split; [by exists q|done].
  - split; [done|]. by intros [q ?].
Qed.

Lemma accepts_words_spec label ws :
  accepts_words label ws = true ↔
    ∀ w, w ∈ ws → w ≠ [] → ci_substring w label.
Proof.
  induction ws as [|w ws IH]; cbn [accepts_words].
  - split; [|done]. intros _ w Hw. by apply elem_of_nil in Hw.
  - destruct w as [|c w].
    + rewrite IH. split.
      * intros H w [->|Hw]%elem_of_cons Hne; [done|by apply H].
      * intros H w Hw. apply H, elem_of_cons. by right.
    + destruct (filterAcceptsRowItself label (c :: w)) eqn:E.
      * rewrite IH. apply filterAcceptsRowItself_spec in E. split.
        -- intros H w' [->|Hw]%elem_of_cons Hne; [done|by apply H].
        -- intros H w' Hw. apply H, elem_of_cons. by right.
      * split; [done|]. intros H.
        assert (ci_substring (c :: w) label) as Hc.
        { apply H; [apply list_elem_of_here|done]. }
        apply filterAcceptsRowItself_spec in Hc. congruence.
Qed.

Lemma filterAcceptsRow_words search label :
  filterAcceptsRow search label = accepts_words label (split space search).
Proof. by destruct search. Qed.




End Filter.

(** ** Highlighting *)

Section Highlight.
Import Str ItemDelegate.

Implicit Types (text word w search label : list ascii)
  (ws : list (list ascii)) (bold : bold_map) (runs : list run).

Lemma bold_wf_weaken lo lo' bold : bold_wf lo bold → lo' ≤ lo → bold_wf lo' bold.
Proof. destruct bold as [|[k v] rest]; [done|]. cbn. intros [? ?] ?. split; [lia|done]. Qed.

Lemma bold_get_lt lo bold q : bold_wf lo bold → q < lo → bold_get q bold = None.
Proof.
  revert lo. induction bold as [|[k v] rest IH]; intros lo Hwf Hq; [done|].
  cbn in *. destruct Hwf as [Hk Hwf].
  destruct (q =? k) eqn:E; [apply Nat.eqb_eq in E; lia|].
  apply (IH (S k)); [done|lia].
Qed.

Lemma bold_wf_elem lo bold s l : bold_wf lo bold → (s, l) ∈ bold → lo ≤ s.
Proof.
  revert lo. induction bold as [|[k v] rest IH]; intros lo Hwf Hin.
  - by apply elem_of_nil in Hin.
  - cbn in Hwf. destruct Hwf as [Hk Hwf].
    apply elem_of_cons in Hin as [[= -> ->]|Hin]; [done|].
    specialize (IH (S k) Hwf Hin). lia.
Qed.

Lemma bold_get_elem lo bold s l :
  bold_wf lo bold → ((s, l) ∈ bold ↔ bold_get s bold = Some l).
Proof.
  revert lo. induction bold as [|[k v] rest IH]; intros lo Hwf.
  - cbn. split; [by intros ?%elem_of_nil|done].
  - cbn in Hwf. destruct Hwf as [Hk Hwf]. cbn [bold_get].
    rewrite elem_of_cons. destruct (s =? k) eqn:E.
    + apply Nat.eqb_eq in E as ->. split.
      * intros [[= ->]|Hin]; [done|].
        apply (bold_wf_elem _ _ _ _ Hwf) in Hin. lia.
      * intros [= ->]. by left.
    + apply Nat.eqb_neq in E. rewrite <- (IH (S k) Hwf). split.
      * intros [[= -> ->]|Hin]; [done|done].
      * by right.
Qed.

Lemma bold_upd_wf lo bold p n :
  bold_wf lo bold → lo ≤ p → bold_wf lo (bold_upd p n bold).
Proof.
  revert lo. induction bold as [|[k v] rest IH]; intros lo Hwf Hp.
  - by cbn.
  - cbn in Hwf. destruct Hwf as [Hk Hwf]. cbn [bold_upd].
    destruct (p <? k) eqn:E1.
    + apply Nat.ltb_lt in E1. cbn. repeat split; [done|lia|done].
    + apply Nat.ltb_ge in E1. destruct (p =? k) eqn:E2.
      * by cbn.
      * apply Nat.eqb_neq in E2. cbn. split; [done|]. apply IH; [done|lia].
Qed.

Lemma bold_upd_get lo bold p n q :
  bold_wf lo bold →
  bold_get q (bold_upd p n bold) =
    if q =? p then Some (Nat.max (default 0 (bold_get p bold)) n)
    else bold_get q bold.
Proof.
  revert lo. induction bold as [|[k v] rest IH]; intros lo Hwf.
  - cbn. by destruct (q =? p).
  - cbn in Hwf. destruct Hwf as [Hk Hwf]. cbn [bold_upd bold_get].
    destruct (p <? k) eqn:E1.
    + apply Nat.ltb_lt in E1. cbn [bold_get].
      destruct (q =? p) eqn:E2; [|done].
      destruct (p =? k) eqn:E3; [apply Nat.eqb_eq in E3; lia|].
      rewrite (bold_get_lt (S k) rest p) by (done || lia). done.
    + apply Nat.ltb_ge in E1. destruct (p =? k) eqn:E2.
      * apply Nat.eqb_eq in E2 as ->. cbn [bold_get default from_option id].
        destruct (q =? k); done.
      * cbn [bold_get]. rewrite (IH (S k) Hwf).
        destruct (q =? k) eqn:E3; [|done].
        apply Nat.eqb_eq in E3 as ->. apply Nat.eqb_neq in E2.
        destruct (k =? p) eqn:E4; [apply Nat.eqb_eq in E4; lia|done].
Qed.

(** The loop over the occurrences of one word finishes within the fuel
    and marks every offset from [from] on where the word is written. *)
Lemma mark_word_spec text word :
  word ≠ [] →
  ∀ fuel from bold,
    length text + 1 ≤ fuel + from → bold_wf 0 bold →
    ∃ bold', mark_word fuel text word (find text word from) bold = Some bold' ∧
      bold_wf 0 bold' ∧
      ∀ q, bold_get q bold' =
             if (from <=? q) && starts_with word (drop q text)
             then Some (Nat.max (default 0 (bold_get q bold)) (length word))
             else bold_get q bold.
Proof.
  intros Hw. induction fuel as [|fuel IH]; intros from bold Hfuel Hwf.
  - destruct (find text word from) as [p|] eqn:E.
    + apply find_Some in E. lia.
    + exists bold. repeat split; [done|]. intros q.
      rewrite find_None in E by done.
      destruct (from <=? q) eqn:Eq; [|done]. apply Nat.leb_le in Eq.
      by rewrite (E q Eq).
  - destruct (find text word from) as [p|] eqn:E.
    + apply find_Some in E as (Hp1 & Hp2 & Hs & Hlt). cbn [mark_word].
      destruct (IH (p + 1) (bold_upd p (length word) bold)) as (b' & Hb' & Hwf' & Hget).
      { lia. }
      { apply (bold_upd_wf 0); [done|lia]. }
      exists b'. repeat split; [done|done|]. intros q.
      rewrite Hget, (bold_upd_get 0) by done.
      destruct (decide (q = p)) as [->|Hne].
      * rewrite Nat.eqb_refl, Hs.
        replace (p + 1 <=? p) with false by (symmetry; apply Nat.leb_gt; lia).
        replace (from <=? p) with true by (symmetry; by apply Nat.leb_le).
        done.
      * replace (q =? p) with false by (symmetry; by apply Nat.eqb_neq).
        destruct (p + 1 <=? q) eqn:E1.
        -- apply Nat.leb_le in E1.
           replace (from <=? q) with true by (symmetry; apply Nat.leb_le; lia).
           done.
        -- apply Nat.leb_gt in E1. cbn [andb].
           destruct (from <=? q) eqn:E2; [|done]. apply Nat.leb_le in E2.
           rewrite Hlt by lia. done.
    + exists bold. repeat split; [done|]. intros q.
      rewrite find_None in E by done.
      destruct (from <=? q) eqn:Eq; [|done]. apply Nat.leb_le in Eq.
      by rewrite (E q Eq).
Qed.

Lemma mark_words_spec text ws :
  Forall (λ w, w ≠ []) ws →
  ∀ bold, bold_wf 0 bold →
    ∃ bold', mark_words text ws bold = Some bold' ∧ bold_wf 0 bold' ∧
      ∀ q, bold_get q bold' = best_length text q ws (bold_get q bold).
Proof.
  induction 1 as [|w ws Hw _ IH]; intros bold Hwf.
  - exists bold. by repeat split.
  - cbn [mark_words best_length].
    destruct (mark_word_spec text w Hw (S (length text)) 0 bold)
      as (b1 & Hb1 & Hwf1 & Hget1); [lia|done|].
    rewrite Hb1. destruct (IH b1 Hwf1) as (b2 & Hb2 & Hwf2 & Hget2).
    exists b2. repeat split; [done|done|]. intros q.
    rewrite Hget2, Hget1. done.
Qed.

Lemma best_length_spec text q ws acc n :
  best_length text q ws acc = Some n ↔
    (acc = Some n ∨
     ∃ w, w ∈ ws ∧ starts_with w (drop q text) = true ∧ length w = n) ∧
    (∀ a, acc = Some a → a ≤ n) ∧
    (∀ w, w ∈ ws → starts_with w (drop q text) = true → length w ≤ n).
Proof.
  revert acc. induction ws as [|w ws IH]; intros acc; cbn [best_length].
  - split.
    + intros ->. repeat split; [by left|by intros a [= ->]|].
      by intros w ?%elem_of_nil.
    + intros [[H|(w & ?%elem_of_nil & _)] _]; done.
  - rewrite IH. clear IH. destruct (starts_with w (drop q text)) eqn:E.
    + split.
      * intros ([H|(w' & Hin & Hs & Hl)] & Ha & Hws).
        -- injection H as H. repeat split.
           ++ destruct acc as [a|]; cbn [default from_option id] in H.
              ** destruct (decide (a ≤ length w)).
                 --- right. exists w. rewrite elem_of_cons. repeat split; [by left|done|lia].
                 --- left. f_equal. lia.
              ** right. exists w. rewrite elem_of_cons. repeat split; [by left|done|lia].
           ++ intros a ->. cbn [default from_option id] in H. lia.
           ++ intros w' [->|Hin]%elem_of_cons Hs; [lia|by apply Hws].
        -- repeat split.
           ++ right. exists w'. rewrite elem_of_cons. by repeat split; [right|..].
           ++ intros a ->. specialize (Ha _ eq_refl). cbn [default from_option id] in Ha. lia.
           ++ intros w2 [->|Hin2]%elem_of_cons Hs2; [|by apply Hws].
              specialize (Ha _ eq_refl). lia.
      * intros (Hex & Ha & Hws).
        assert (length w ≤ n) as Hwn.
        { apply Hws; [apply list_elem_of_here|done]. }
        assert (default 0 acc ≤ n) as Han.
        { destruct acc as [a|]; cbn [default from_option id]; [by apply Ha|lia]. }
        repeat split.
        -- destruct Hex as [->|(w' & [->|Hin]%elem_of_cons & Hs & Hl)].
           ++ left. f_equal. cbn [default from_option id] in *. lia.
           ++ left. f_equal. lia.
           ++ right. by exists w'.
        -- intros a [= <-]. lia.
        -- intros w' Hin. apply Hws, elem_of_cons. by right.
    + split.
      * intros ([H|(w' & Hin & Hs & Hl)] & Ha & Hws); repeat split.
        -- by left.
        -- done.
        -- intros w' [->|Hin]%elem_of_cons Hs; [congruence|by apply Hws].
        -- right. exists w'. rewrite elem_of_cons. by repeat split; [right|..].
        -- done.
        -- intros w2 [->|Hin2]%elem_of_cons Hs2; [congruence|by apply Hws].
      * intros (Hex & Ha & Hws). repeat split.
        -- destruct Hex as [->|(w' & [->|Hin]%elem_of_cons & Hs & Hl)].
           ++ by left.
           ++ congruence.
           ++ right. by exists w'.
        -- done.
        -- intros w' Hin. apply Hws, elem_of_cons. by right.
Qed.

Lemma toupper_space c : Ascii.eqb (toupper c) space = Ascii.eqb c space.
Proof. destruct c as [[] [] [] [] [] [] [] []]; vm_compute; reflexivity. Qed.

Lemma split_upper s : split space (upper s) = map upper (split space s).
Proof.
  induction s as [|c s IH]; [done|].
  cbn [upper map split]. rewrite toupper_space. fold (upper s). rewrite IH.
  destruct (Ascii.eqb c space); [done|]. by destruct (split space s).
Qed.

Lemma upper_nil w : upper w = [] ↔ w = [].
Proof. by destruct w. Qed.

Lemma upper_length w : length (upper w) = length w.
Proof. apply length_map. Qed.

Lemma wordsUpper_elem search w' :
  w' ∈ wordsUpper search ↔
    ∃ w, w ∈ split space search ∧ w ≠ [] ∧ w' = upper w.
Proof.
  unfold wordsUpper. rewrite list_elem_of_filter, split_upper.
  change (map upper (split space search)) with (upper <$> split space search).
  rewrite list_elem_of_fmap. split.
  - intros [Hne (w & -> & Hin)]. exists w. split; [done|]. split; [|done].
    by rewrite <- upper_nil.
  - intros (w & Hin & Hne & ->). split; [by rewrite upper_nil|by exists w].
Qed.

Lemma wordsUpper_nonempty search : Forall (λ w, w ≠ []) (wordsUpper search).
Proof. apply Forall_forall. by intros w [? _]%list_elem_of_filter. Qed.

(** The bold map of [paint] exists and holds, at every offset where a
    word of the search is written, the longest length of such a word. *)
Lemma bold_of_spec search label :
  ∃ bold, bold_of search label = Some bold ∧ bold_wf 0 bold ∧
    ∀ p n, bold_get p bold = Some n ↔
      (∃ w, w ∈ split space search ∧ w ≠ [] ∧
            ci_match_at w label p ∧ length w = n) ∧
      (∀ w, w ∈ split space search → w ≠ [] →
            ci_match_at w label p → length w ≤ n).
Proof.
  unfold bold_of.
  destruct (mark_words_spec (upper label) (wordsUpper search)
              (wordsUpper_nonempty search) [] I) as (bold & Hb & Hwf & Hget).
  exists bold. split; [done|]. split; [done|]. intros p n.
  rewrite Hget. cbn [bold_get]. rewrite best_length_spec. split.
  - intros ([[=]|(w' & Hin & Hs & Hl)] & _ & Hmax). split.
    + apply wordsUpper_elem in Hin as (w & Hin & Hne & ->).
      exists w. rewrite upper_length in Hl. by repeat split.
    + intros w Hw Hne Hm. rewrite <- upper_length. apply Hmax; [|done].
      apply wordsUpper_elem. by exists w.
  - intros [(w & Hin & Hne & Hm & Hl) Hmax]. split; [|split].
    + right. exists (upper w). split; [|split; [done|by rewrite upper_length]].
      apply wordsUpper_elem. by exists w.
    + by intros a [=].
    + intros w' (w2 & Hin2 & Hne2 & ->)%wordsUpper_elem Hs.
      rewrite upper_length. by apply Hmax.
Qed.

Lemma bold_of_entries search label bold s l :
  bold_of search label = Some bold → (s, l) ∈ bold →
  0 < l ∧ s + l ≤ length label.
Proof.
  intros Hb Hin. destruct (bold_of_spec search label) as (b & Hb' & Hwf & Hget).
  assert (b = bold) as -> by congruence.
  apply (bold_get_elem 0 _ _ _ Hwf), Hget in Hin as [(w & _ & Hne & Hm & Hl) _].
  unfold ci_match_at in Hm. pose proof (starts_with_length _ _ Hm) as Hlen.
  rewrite length_drop, !upper_length in Hlen.
  assert (0 < length w) by (destruct w; [done|cbn; lia]). lia.
Qed.

Lemma adjust_Some r s l s' l' :
  adjust r s l = Some (s', l') → 0 < l →
  r ≤ s' ∧ s ≤ s' ∧ s' + l' = s + l ∧ 0 < l' ∧ s' = Nat.max r s.
Proof.
  unfold adjust. intros H Hl. destruct (s <? r) eqn:E1.
  - apply Nat.ltb_lt in E1. destruct (r <? s + l) eqn:E2; [|done].
    apply Nat.ltb_lt in E2. injection H as <- <-. lia.
  - apply Nat.ltb_ge in E1. injection H as <- <-. lia.
Qed.


Lemma paint_loop_skip text s l rest r :
  adjust r s l = None →
  paint_loop text ((s, l) :: rest) r = paint_loop text rest r.
Proof. intros H. cbn [paint_loop]. by rewrite H. Qed.

Lemma paint_loop_draw text s l rest r s' l' :
  adjust r s l = Some (s', l') →
  paint_loop text ((s, l) :: rest) r =
    ((paint_loop text rest (r + (s' - r) + l')).1,
     mkRun Regular r (s' - r) (substr text r (s' - r))
     :: mkRun Bold (r + (s' - r)) l' (substr text (r + (s' - r)) l')
     :: (paint_loop text rest (r + (s' - r) + l')).2).
Proof.
  intros H. cbn [paint_loop]. rewrite H.
  by destruct (paint_loop text rest (r + (s' - r) + l')).
Qed.

(** The runs drawn by the loop are the text between the initial and the
    final render position. *)
Lemma paint_loop_text text bold r :
  r ≤ length text →
  (∀ s l, (s, l) ∈ bold → 0 < l ∧ s + l ≤ length text) →
  r ≤ (paint_loop text bold r).1 ∧
  (paint_loop text bold r).1 ≤ length text ∧
  drawn_text (paint_loop text bold r).2 =
    substr text r ((paint_loop text bold r).1 - r).
Proof.
  revert r. induction bold as [|[s l] rest IH]; intros r Hr Hb.
  - cbn. rewrite Nat.sub_diag. unfold substr. by rewrite take_0.
  - assert (∀ s l, (s, l) ∈ rest → 0 < l ∧ s + l ≤ length text) as Hrest.
    { intros s0 l0 Hin. apply Hb, elem_of_cons. by right. }
    destruct (Hb s l) as [Hl Hsl]; [apply list_elem_of_here|].
    destruct (adjust r s l) as [[s' l']|] eqn:E.
    + rewrite (paint_loop_draw _ _ _ _ _ _ _ E). cbn [fst snd].
      apply adjust_Some in E as (H1 & H2 & H3 & H4 & _); [|done].
      replace (r + (s' - r)) with s' by lia.
      destruct (IH (s' + l')) as (I1 & I2 & I3); [lia|done|].
      split; [lia|]. split; [done|].
      unfold drawn_text in *. cbn [map concat rtext]. rewrite I3.
      unfold substr.
      replace (drop s' text) with (drop (s' - r) (drop r text))
        by (rewrite drop_drop; f_equal; lia).
      rewrite app_assoc, take_take_drop.
      replace (drop (s' + l') text) with (drop (s' - r + l') (drop r text))
        by (rewrite drop_drop; f_equal; lia).
      rewrite take_take_drop. f_equal. lia.
    + rewrite (paint_loop_skip _ _ _ _ _ E). by apply IH.
Qed.





Lemma paint_nonempty search label bold :
  label ≠ [] → bold_of search label = Some bold →
  paint search label =
    Some (Drawn ((paint_loop label bold 0).2 ++
                 remaining label (paint_loop label bold 0).1)).
Proof.
  intros Hne Hb. destruct label as [|c t]; [done|].
  unfold paint. rewrite Hb. by destruct (paint_loop (c :: t) bold 0).
Qed.





End Highlight.

(** ** Further properties of the reconcile cycle and of the store *)

Section ReconcileMore.
Import TopicsStats Props.

Implicit Types (m : gmap string BasicStats) (d : TopicsStatsPrivate)
  (t topic : string) (topics prev : list string) (c : cycle)
  (tr : list event) (ins : list input).

Lemma FillTopics_lookup c d t :
  stats (FillTopics c d).1 !! t =
    (λ s, mkBasicStats (numMessages s) 0 0) <$>
      (if bool_decide (t ∈ listed c ∧ (t ∉ prevTopics d) ∧ subscribe c t = true)
       then Some BasicStats_new
       else if bool_decide (t ∈ prevTopics d ∧ t ∉ listed c) then None
            else stats d !! t).
Proof.
  rewrite FillTopics_eq. cbn [fst stats].
  by rewrite ResetStats_lookup, add_new_lookup, remove_expired_lookup.
Qed.

Lemma remove_expired_none topics prev m :
  (∀ t, t ∈ prev → t ∈ topics) → remove_expired topics prev m = (m, []).
Proof.
  induction prev as [|p prev IH]; intros Hsub; [done|].
  cbn [remove_expired]. rewrite bool_decide_eq_true_2.
  - apply IH. intros t Ht. apply Hsub, elem_of_cons. by right.
  - apply Hsub, list_elem_of_here.
Qed.

Lemma add_new_none sub prev topics m :
  (∀ t, t ∈ topics → t ∈ prev) → add_new sub prev topics m = (m, []).
Proof.
  induction topics as [|p topics IH]; intros Hsub; [done|].
  cbn [add_new]. rewrite bool_decide_eq_true_2.
  - apply IH. intros t Ht. apply Hsub, elem_of_cons. by right.
  - apply Hsub, list_elem_of_here.
Qed.

Lemma ResetStats_idemp m : ResetStats (ResetStats m) = ResetStats m.
Proof.
  apply map_eq. intros t. rewrite !ResetStats_lookup.
  by destruct (m !! t).
Qed.

Lemma FillTopics_same_topics c d :
  (∀ t, t ∈ listed c ↔ t ∈ prevTopics d) →
  FillTopics c d =
    (mkPrivate (listed c) (ResetStats (stats d)),
     [EvTopicList (listed c); EvLock; EvGui (UpdateGUIStats (stats d)); EvUnlock]).
Proof.
  intros Hsame. unfold FillTopics.
  rewrite remove_expired_none by (intros t; apply Hsame).
  by rewrite add_new_none by (intros t; apply Hsame).
Qed.

(** X1. Reconciling twice with the same set of listed topics: the
    second cycle makes no [Subscribe] and no [Unsubscribe] call, only
    refreshes the rows, and leaves every statistics entry as the first
    cycle left it. *)
Theorem FillTopics_twice_same_listing c1 c2 d :
  (∀ t, t ∈ listed c2 ↔ t ∈ listed c1) →
  let d1 := (FillTopics c1 d).1 in
  stats (FillTopics c2 d1).1 = stats d1 ∧
  prevTopics (FillTopics c2 d1).1 = listed c2 ∧
  (FillTopics c2 d1).2 =
    [EvTopicList (listed c2); EvLock; EvGui (UpdateGUIStats (stats d1));
     EvUnlock].
Proof.
  intros Hsame d1.
  rewrite (FillTopics_same_topics c2 d1).
  - cbn [fst snd stats prevTopics]. split; [|done].
    unfold d1. rewrite FillTopics_eq. cbn [fst stats]. apply ResetStats_idemp.
  - intros t. unfold d1. by rewrite FillTopics_prevTopics.
Qed.

Lemma FillTopics_twice_same_listing_witness :
  (FillTopics (mkCycle ["/b"; "/a"] (λ _, false))
     (FillTopics (mkCycle ["/a"; "/b"] (λ t, bool_decide (t = "/a"))) initial).1).2
  = [EvTopicList ["/b"; "/a"]; EvLock;
     EvGui (UpdateGUIStats
              (stats (FillTopics (mkCycle ["/a"; "/b"] (λ t, bool_decide (t = "/a")))
                        initial).1));
     EvUnlock].
Proof.
  apply (FillTopics_twice_same_listing
           (mkCycle ["/a"; "/b"] (λ t, bool_decide (t = "/a")))
           (mkCycle ["/b"; "/a"] (λ _, false)) initial).
  intros t. cbn [listed]. rewrite !elem_of_cons, !elem_of_nil. tauto.
Defined.

(** X2. After a cycle every entry has both last-second counters at 0,
    and its total is either 0 for a topic subscribed in this cycle or
    the total that the topic had before the cycle: a cycle never changes
    the total of a topic that stays tracked. *)
Theorem FillTopics_entries c d t s' :
  stats (FillTopics c d).1 !! t = Some s' →
  numMessagesLastSec s' = 0%Z ∧ numBytesLastSec s' = 0%Z ∧
  ((t ∈ listed c ∧ (t ∉ prevTopics d) ∧ subscribe c t = true ∧
    numMessages s' = 0%Z) ∨
   (∃ s, stats d !! t = Some s ∧ numMessages s' = numMessages s)).
Proof.
  rewrite FillTopics_lookup. intros H.
  repeat case_bool_decide.
  - injection H as <-. split; [done|]. split; [done|]. left. tauto.
  - discriminate.
  - destruct (stats d !! t) as [s|]; [|discriminate].
    injection H as <-. split; [done|]. split; [done|]. right. by exists s.
Qed.

Lemma FillTopics_entries_witness :
  numMessagesLastSec (mkBasicStats 7 0 0) = 0%Z ∧
  numBytesLastSec (mkBasicStats 7 0 0) = 0%Z ∧
  ∃ s, ({[ "/a" := mkBasicStats 7 3 1500 ]} : gmap string BasicStats) !! "/a"
         = Some s ∧ numMessages s = 7%Z.
Proof.
  destruct (FillTopics_entries (mkCycle ["/a"; "/b"] (λ _, true))
              (mkPrivate ["/a"] {[ "/a" := mkBasicStats 7 3 1500 ]}) "/a"
              (mkBasicStats 7 0 0)) as (H1 & H2 & [(_ & Hnew & _)|(s & Hs & Ht)]).
  - vm_compute. reflexivity.
  - exfalso. apply Hnew. apply list_elem_of_here.
  - split; [exact H1|]. split; [exact H2|]. exists s. by split.
Defined.

End ReconcileMore.

Section ReconcileCalls.
Import TopicsStats Props.

Implicit Types (m : gmap string BasicStats) (d : TopicsStatsPrivate)
  (t topic : string) (topics prev : list string) (c : cycle)
  (tr : list event) (ins : list input).

Lemma FillTopics_unsubscribe_event c d t :
  EvUnsubscribe t ∈ (FillTopics c d).2 ↔ t ∈ prevTopics d ∧ t ∉ listed c.
Proof.
  rewrite FillTopics_eq. cbn [snd].
  rewrite !elem_of_cons, !elem_of_app, list_elem_of_fmap, list_elem_of_bind.
  rewrite !elem_of_cons, elem_of_nil. split.
  - intros [H|[H|[H|[H|H]]]]; try discriminate.
    + destruct H as (y & [= <-] & Hy). apply list_elem_of_filter in Hy. tauto.
    + destruct H as (p & Hc & Hp). unfold add_calls in Hc.
      case_bool_decide as Hprev; [by apply elem_of_nil in Hc|].
      destruct (subscribe c p);
        rewrite ?elem_of_cons, elem_of_nil in Hc; intuition discriminate.
    + intuition discriminate.
  - intros [Hprev Hl]. do 2 right. left. exists t. split; [done|].
    by apply list_elem_of_filter.
Qed.

Lemma FillTopics_trace_end c d :
  ∃ pre m,
    (FillTopics c d).2 = pre ++ [EvGui (UpdateGUIStats m); EvUnlock] ∧
    stats (FillTopics c d).1 = ResetStats m ∧
    ∀ t, t ∈ listed c → t ∈ prevTopics d → m !! t = stats d !! t.
Proof.
  rewrite FillTopics_eq. cbn [fst snd stats].
  set (m1 := (remove_expired (listed c) (prevTopics d) (stats d)).1).
  set (m2 := (add_new (subscribe c) (prevTopics d) (listed c) m1).1).
  exists (EvTopicList (listed c) :: EvLock ::
            (EvUnsubscribe <$> filter (λ t, t ∉ listed c) (prevTopics d)) ++
            (listed c ≫= add_calls (subscribe c) (prevTopics d))), m2.
  split; [|split; [done|]].
  - cbn [app]. by rewrite <- !app_assoc.
  - intros t Hl Hp. unfold m2, m1.
    rewrite add_new_lookup, remove_expired_lookup.
    rewrite bool_decide_eq_false_2 by tauto.
    by rewrite bool_decide_eq_false_2 by tauto.
Qed.

(** X3. The rows written at the end of a cycle, just before the mutex
    is released, show the counters as they were before the reset of the
    same cycle: for a topic that was tracked, is a previous topic and is
    still listed, the row shows its total, its last-second message count
    and the bandwidth of its last-second byte count, while the entry kept
    afterwards has both last-second counters at 0. *)
Theorem FillTopics_rows_before_reset c d t s :
  stats d !! t = Some s → t ∈ prevTopics d → t ∈ listed c →
  ∃ pre rows row,
    (FillTopics c d).2 = pre ++ [EvGui rows; EvUnlock] ∧
    rows !! t = Some row ∧
    shownMessages row = numMessages s ∧
    shownHz row = numMessagesLastSec s ∧
    (shownBandwidth row, shownUnits row) = bandwidth_units (numBytesLastSec s) ∧
    stats (FillTopics c d).1 !! t = Some (mkBasicStats (numMessages s) 0 0).
Proof.
  intros Hs Hp Hl. destruct (FillTopics_trace_end c d) as (pre & m & Htr & Hst & Hm).
  exists pre, (UpdateGUIStats m), (gui_row_of s).
  split; [done|]. rewrite UpdateGUIStats_lookup, Hst, ResetStats_lookup.
  rewrite (Hm t Hl Hp), Hs. cbn [fmap option_fmap option_map].
  unfold gui_row_of. destruct (bandwidth_units (numBytesLastSec s)) as [b u].
  by repeat split.
Qed.

Lemma FillTopics_rows_before_reset_witness :
  ∃ pre rows row,
    (FillTopics (mkCycle ["/a"] (λ _, true))
       (mkPrivate ["/a"] {[ "/a" := mkBasicStats 7 3 1500 ]})).2
      = pre ++ [EvGui rows; EvUnlock] ∧
    rows !! "/a" = Some row ∧ shownMessages row = 7%Z ∧ shownHz row = 3%Z.
Proof.
  destruct (FillTopics_rows_before_reset (mkCycle ["/a"] (λ _, true))
              (mkPrivate ["/a"] {[ "/a" := mkBasicStats 7 3 1500 ]}) "/a"
              (mkBasicStats 7 3 1500))
    as (pre & rows & row & H1 & H2 & H3 & H4 & _).
  - vm_compute. reflexivity.
  - apply list_elem_of_here.
  - apply list_elem_of_here.
  - exists pre, rows, row. by repeat split.
Defined.

(** X4. In one cycle [Subscribe] is called exactly for the listed topics
    that are not previous topics, and [Unsubscribe] exactly for the
    previous topics that are not listed, whether or not they have
    statistics; no topic gets both calls in the same cycle. *)
Theorem FillTopics_calls c d t :
  (∀ ok, EvSubscribe t ok ∈ (FillTopics c d).2 ↔
           t ∈ listed c ∧ (t ∉ prevTopics d) ∧ ok = subscribe c t) ∧
  (EvUnsubscribe t ∈ (FillTopics c d).2 ↔ t ∈ prevTopics d ∧ t ∉ listed c) ∧
  ¬ (EvUnsubscribe t ∈ (FillTopics c d).2 ∧
     ∃ ok, EvSubscribe t ok ∈ (FillTopics c d).2).
Proof.
  split; [|split].
  - intros ok. apply FillTopics_subscribe_event.
  - apply FillTopics_unsubscribe_event.
  - intros [Hu [ok Hs]]. apply FillTopics_unsubscribe_event in Hu.
    apply FillTopics_subscribe_event in Hs. tauto.
Qed.

(** X5. A topic whose [Subscribe] failed is still unsubscribed by the
    first later cycle that does not list it, although no [Subscribe] for
    it ever succeeded. *)
Theorem failed_topic_is_unsubscribed c1 c2 d t :
  t ∈ listed c1 → t ∉ prevTopics d → subscribe c1 t = false →
  t ∉ listed c2 →
  (∀ ok, EvSubscribe t ok ∈ (FillTopics c1 d).2 → ok = false) ∧
  EvUnsubscribe t ∈ (FillTopics c2 (FillTopics c1 d).1).2.
Proof.
  intros Hl Hp Hsub Hl2. split.
  - intros ok (_ & _ & ->)%FillTopics_subscribe_event. done.
  - apply FillTopics_unsubscribe_event. by rewrite FillTopics_prevTopics.
Qed.

Lemma failed_topic_is_unsubscribed_witness :
  EvUnsubscribe "/a" ∈
    (FillTopics (mkCycle [] (λ _, true))
       (FillTopics (mkCycle ["/a"] (λ _, false)) initial).1).2.
Proof.
  apply (failed_topic_is_unsubscribed (mkCycle ["/a"] (λ _, false))
           (mkCycle [] (λ _, true)) initial "/a").
  - apply list_elem_of_here.
  - apply not_elem_of_nil.
  - reflexivity.
  - apply not_elem_of_nil.
Defined.

(** X6. A topic that leaves the listing and is listed again later
    starts afresh: the cycle that lists it again subscribes to it and
    its statistics are all 0, whatever they were; if it was a previous
    topic, the cycle that missed it had unsubscribed and erased it. *)
Theorem topic_reappears_fresh c1 c2 d t :
  t ∉ listed c1 → t ∈ listed c2 → subscribe c2 t = true →
  let d1 := (FillTopics c1 d).1 in
  stats (FillTopics c2 d1).1 !! t = Some (mkBasicStats 0 0 0) ∧
  EvSubscribe t true ∈ (FillTopics c2 d1).2 ∧
  (t ∈ prevTopics d →
     EvUnsubscribe t ∈ (FillTopics c1 d).2 ∧ stats d1 !! t = None).
Proof.
  intros Hl1 Hl2 Hsub d1. split; [|split].
  - rewrite FillTopics_lookup. unfold d1.
    rewrite (FillTopics_prevTopics c1 d).
    by rewrite bool_decide_eq_true_2.
  - apply FillTopics_subscribe_event. unfold d1.
    by rewrite FillTopics_prevTopics, Hsub.
  - intros Hp. split.
    + by apply FillTopics_unsubscribe_event.
    + unfold d1. rewrite FillTopics_lookup.
      rewrite bool_decide_eq_false_2 by tauto.
      by rewrite bool_decide_eq_true_2.
Qed.

Lemma topic_reappears_fresh_witness :
  stats (FillTopics (mkCycle ["/a"] (λ _, true))
           (FillTopics (mkCycle [] (λ _, true))
              (mkPrivate ["/a"] {[ "/a" := mkBasicStats 7 3 1500 ]})).1).1 !! "/a"
  = Some (mkBasicStats 0 0 0).
Proof.
  apply (topic_reappears_fresh (mkCycle [] (λ _, true))
           (mkCycle ["/a"] (λ _, true))
           (mkPrivate ["/a"] {[ "/a" := mkBasicStats 7 3 1500 ]}) "/a").
  - apply not_elem_of_nil.
  - apply list_elem_of_here.
  - reflexivity.
Defined.

(** X7. Once a cycle has not listed a topic, a message that still
    arrives for it is an orphan: it only prints the anomaly and changes
    nothing (given that the statistics only held previous topics). *)
Theorem message_after_removal_is_orphan c d t byteSize :
  tracked_within d → t ∉ listed c →
  OnMessage t byteSize (FillTopics c d).1 =
    ((FillTopics c d).1,
     [EvLock; EvCerr ("Unable to find stats for [" +:+ t +:+ "]"); EvUnlock]).
Proof.
  intros Hd Hl.
  pose proof (step_tracked_within d (Tick c) Hd) as Hd'. cbn [step] in Hd'.
  unfold tracked_within in Hd'. rewrite FillTopics_prevTopics in Hd'.
  assert (stats (FillTopics c d).1 !! t = None) as Hnone.
  { apply not_elem_of_dom. intros Hin. apply Hd', elem_of_list_to_set in Hin. done. }
  unfold OnMessage. by rewrite Hnone.
Qed.

Lemma message_after_removal_is_orphan_witness :
  OnMessage "/a" 12
    (FillTopics (mkCycle ["/b"] (λ _, true))
       (mkPrivate ["/a"] {[ "/a" := mkBasicStats 7 3 1500 ]})).1
  = ((FillTopics (mkCycle ["/b"] (λ _, true))
        (mkPrivate ["/a"] {[ "/a" := mkBasicStats 7 3 1500 ]})).1,
     [EvLock; EvCerr "Unable to find stats for [/a]"; EvUnlock]).
Proof.
  apply (message_after_removal_is_orphan (mkCycle ["/b"] (λ _, true))
           (mkPrivate ["/a"] {[ "/a" := mkBasicStats 7 3 1500 ]}) "/a" 12).
  - unfold tracked_within. cbn [stats prevTopics].
    rewrite dom_singleton_L. intros x Hx. apply elem_of_singleton in Hx as ->.
    apply elem_of_list_to_set, list_elem_of_here.
  - cbn [listed]. rewrite elem_of_cons, elem_of_nil. intros [?|[]]. discriminate.
Defined.

End ReconcileCalls.

Section StoreMore.
Import TopicsStats Props.

Implicit Types (m : gmap string BasicStats) (d : TopicsStatsPrivate)
  (t topic : string) (c : cycle) (tr : list event) (ins : list input)
  (s : BasicStats).

Lemma lock_held_app h tr1 tr2 :
  lock_held h (tr1 ++ tr2) = lock_held (lock_held h tr1) tr2.
Proof.
  revert h. induction tr1 as [|e tr1 IH]; intros h; [done|].
  destruct e; cbn [app lock_held]; apply IH.
Qed.

Lemma well_locked_app h tr1 tr2 :
  well_locked h (tr1 ++ tr2) =
    well_locked h tr1 && well_locked (lock_held h tr1) tr2.
Proof.
  revert h. induction tr1 as [|e tr1 IH]; intros h; [done|].
  destruct e; cbn [app well_locked lock_held]; rewrite ?IH;
    by rewrite ?andb_assoc.
Qed.

Lemma no_lock_events h body :
  Forall (λ e, is_lock_event e = false) body →
  well_locked h body = true ∧ lock_held h body = h.
Proof.
  induction 1 as [|e body He _ [IH1 IH2]]; [done|].
  destruct e; try discriminate; cbn [well_locked lock_held]; by split.
Qed.

Lemma step_locks d i :
  well_locked false (step d i).2 = true ∧ lock_held false (step d i).2 = false.
Proof.
  destruct i as [c|topic sz]; cbn [step].
  - rewrite FillTopics_eq. cbn [snd].
    set (body := (EvUnsubscribe <$> filter (λ t, t ∉ listed c) (prevTopics d)) ++
                 (listed c ≫= add_calls (subscribe c) (prevTopics d))).
    assert (Forall (λ e, is_lock_event e = false) body) as Hbody.
    { apply Forall_app. split; [apply unsubscribe_no_lock|apply add_calls_no_lock]. }
    destruct (no_lock_events true body Hbody) as [H1 H2].
    cbn [well_locked lock_held negb andb].
    rewrite app_assoc. fold body.
    rewrite well_locked_app, lock_held_app, H1, H2. by split.
  - unfold OnMessage. by destruct (stats d !! topic).
Qed.

(** X8. Along every sequence of cycles and messages the mutex is taken
    and released in turn: it is never taken while held, never released
    while free, and it is free at the end. *)
Theorem run_lock_discipline d ins :
  well_locked false (run d ins).2 = true ∧ lock_held false (run d ins).2 = false.
Proof.
  revert d. induction ins as [|i ins IH]; intros d; [done|].
  rewrite run_cons. cbn [snd].
  destruct (step_locks d i) as [H1 H2]. destruct (IH (step d i).1) as [H3 H4].
  by rewrite well_locked_app, lock_held_app, H1, H2, H3, H4.
Qed.

Lemma wrap64_range x : (0 ≤ wrap64 x < 2 ^ 64)%Z.
Proof. unfold wrap64. apply Z.mod_pos_bound. done. Qed.

Lemma wrap64_add_l x y : wrap64 (wrap64 x + y) = wrap64 (x + y).
Proof. unfold wrap64. apply Zplus_mod_idemp_l. Qed.

Lemma step_in_range d i :
  (∀ t s, stats d !! t = Some s → in_range s) →
  ∀ t s, stats (step d i).1 !! t = Some s → in_range s.
Proof.
  intros Hd t s. destruct i as [c|topic sz]; cbn [step].
  - rewrite FillTopics_lookup. repeat case_bool_decide.
    + intros [= <-]. unfold in_range. cbn. lia.
    + done.
    + destruct (stats d !! t) as [s0|] eqn:E; [|done]. intros [= <-].
      destruct (Hd t s0 E) as (? & _ & _). unfold in_range. cbn. lia.
  - unfold OnMessage. destruct (stats d !! topic) as [s0|] eqn:E; [|apply Hd].
    cbn [fst stats]. destruct (decide (topic = t)) as [->|Hne].
    + rewrite lookup_insert_eq. intros [= <-].
      repeat split; apply wrap64_range.
    + rewrite lookup_insert_ne by done. apply Hd.
Qed.

Lemma run_in_range ins d :
  (∀ t s, stats d !! t = Some s → in_range s) →
  ∀ t s, stats (run d ins).1 !! t = Some s → in_range s.
Proof.
  revert d. induction ins as [|i ins IH]; intros d Hd; [done|].
  rewrite run_cons. cbn [fst]. by apply IH, step_in_range.
Qed.

(** X9. Whatever cycles and messages the plugin has seen since its
    construction, every counter of every entry is a value of a
    [uint64_t], between 0 and [2^64 - 1]. *)
Theorem run_counters_in_range ins t s :
  stats (run initial ins).1 !! t = Some s → in_range s.
Proof.
  apply (run_in_range ins initial). intros t' s' H. cbn in H.
  by rewrite lookup_empty in H.
Qed.

Lemma run_counters_in_range_witness :
  in_range (mkBasicStats 2 2 20).
Proof.
  apply (run_counters_in_range
           [Tick (mkCycle ["/a"] (λ _, true)); Message "/a" 8; Message "/a" 12]
           "/a" (mkBasicStats 2 2 20)).
  vm_compute. reflexivity.
Defined.

(** X10. Two messages can be recorded in either order: the resulting
    state is the same, whether they are for the same topic, for two
    topics, or for topics without statistics. *)
Theorem OnMessage_commute t1 b1 t2 b2 d :
  (OnMessage t1 b1 (OnMessage t2 b2 d).1).1 =
  (OnMessage t2 b2 (OnMessage t1 b1 d).1).1.
Proof.
  destruct (decide (t1 = t2)) as [->|Hne].
  - unfold OnMessage. destruct (stats d !! t2) as [s|] eqn:E.
    + cbn [fst stats prevTopics]. rewrite !lookup_insert_eq.
      cbn [fst stats prevTopics numMessages numMessagesLastSec numBytesLastSec].
      rewrite !insert_insert_eq, !wrap64_add_l.
      by replace (numBytesLastSec s + b2 + b1)%Z
        with (numBytesLastSec s + b1 + b2)%Z by lia.
    + cbn [fst]. by rewrite E.
  - assert (stats (OnMessage t2 b2 d).1 !! t1 = stats d !! t1) as H1
      by (apply OnMessage_other; congruence).
    assert (stats (OnMessage t1 b1 d).1 !! t2 = stats d !! t2) as H2
      by (by apply OnMessage_other).
    unfold OnMessage at 1 3. rewrite H1, H2.
    rewrite !OnMessage_prevTopics. unfold OnMessage.
    destruct (stats d !! t1) as [s1|] eqn:E1, (stats d !! t2) as [s2|] eqn:E2;
      cbn [fst stats prevTopics]; try done.
    f_equal. by apply insert_insert_ne.
Qed.

Lemma run_messages sizes d t s :
  stats d !! t = Some s → in_range s →
  stats (run d (Message t <$> sizes)).1 =
    <[t := mkBasicStats (wrap64 (numMessages s + Z.of_nat (length sizes)))
             (wrap64 (numMessagesLastSec s + Z.of_nat (length sizes)))
             (wrap64 (numBytesLastSec s + total_bytes sizes))]> (stats d) ∧
  prevTopics (run d (Message t <$> sizes)).1 = prevTopics d.
Proof.
  revert d s. induction sizes as [|b sizes IH]; intros d s Hs (R1 & R2 & R3).
  - cbn. rewrite !Z.add_0_r, !wrap64_small by done. split; [|done].
    symmetry. apply insert_id. by destruct s.
  - rewrite fmap_cons, run_cons. cbn [fst step].
    assert (stats (OnMessage t b d).1 !! t =
              Some (mkBasicStats (wrap64 (numMessages s + 1))
                      (wrap64 (numMessagesLastSec s + 1))
                      (wrap64 (numBytesLastSec s + b)))) as Hs'.
    { unfold OnMessage. rewrite Hs. cbn [fst stats]. apply lookup_insert_eq. }
    destruct (IH _ _ Hs') as [I1 I2].
    { repeat split; apply wrap64_range. }
    rewrite I1, I2, OnMessage_prevTopics. split; [|done].
    unfold OnMessage. rewrite Hs. cbn [fst stats numMessages numMessagesLastSec
      numBytesLastSec length total_bytes foldr].
    rewrite insert_insert_eq, !wrap64_add_l. do 3 f_equal; [lia|lia|].
    fold (total_bytes sizes). lia.
Qed.

(** X11. Messages add up: after a list of messages for a tracked topic,
    with no cycle in between, its total and its last-second message
    counter have grown by the number of messages and its last-second byte
    counter by the sum of their sizes (in [uint64_t] arithmetic); the
    other topics and the previous topics are as before. *)
Theorem messages_add_up sizes d t s :
  stats d !! t = Some s → in_range s →
  let d' := (run d (Message t <$> sizes)).1 in
  stats d' !! t =
    Some (mkBasicStats (wrap64 (numMessages s + Z.of_nat (length sizes)))
            (wrap64 (numMessagesLastSec s + Z.of_nat (length sizes)))
            (wrap64 (numBytesLastSec s + total_bytes sizes))) ∧
  (∀ t', t' ≠ t → stats d' !! t' = stats d !! t') ∧
  prevTopics d' = prevTopics d.
Proof.
  intros Hs Hr d'. destruct (run_messages sizes d t s Hs Hr) as [H1 H2].
  unfold d'. rewrite H1. split; [apply lookup_insert_eq|]. split; [|done].
  intros t' Hne. by apply lookup_insert_ne.
Qed.

Lemma messages_add_up_witness :
  stats (run (mkPrivate ["/a"] {[ "/a" := mkBasicStats 7 0 0 ]})
           (Message "/a" <$> [100; 250; 1000]%Z)).1 !! "/a"
  = Some (mkBasicStats (wrap64 (7 + 3)) (wrap64 (0 + 3)) (wrap64 (0 + 1350))).
Proof.
  apply (messages_add_up [100; 250; 1000]%Z
           (mkPrivate ["/a"] {[ "/a" := mkBasicStats 7 0 0 ]}) "/a"
           (mkBasicStats 7 0 0)).
  - vm_compute. reflexivity.
  - unfold in_range. cbn. lia.
Defined.

End StoreMore.

Section RatesMore.
Import TopicsStats Props.

Implicit Types (d : TopicsStatsPrivate) (t : string) (c : cycle)
  (s : BasicStats) (sizes : list Z).

Lemma total_bytes_nonneg sizes :
  Forall (λ b, (0 ≤ b)%Z) sizes → (0 ≤ total_bytes sizes)%Z.
Proof.
  induction 1 as [|b sizes Hb _ IH]; cbn; [done|]. fold (total_bytes sizes). lia.
Qed.

(** X12. What a cycle shows for a topic is what arrived since the
    previous cycle: if the last-second counters of a tracked, previous
    and still listed topic are at 0 and messages then arrive for it, the
    next cycle shows their number as the frequency, the bandwidth of the
    sum of their sizes, and the total increased by their number (as long
    as nothing exceeds [2^64 - 1]). *)
Theorem tick_shows_messages_since_last_tick c d t s sizes :
  stats d !! t = Some s → t ∈ prevTopics d → t ∈ listed c →
  numMessagesLastSec s = 0%Z → numBytesLastSec s = 0%Z →
  (0 ≤ numMessages s)%Z →
  (numMessages s + Z.of_nat (length sizes) < 2 ^ 64)%Z →
  Forall (λ b, (0 ≤ b)%Z) sizes → (total_bytes sizes < 2 ^ 64)%Z →
  let d' := (run d (Message t <$> sizes)).1 in
  ∃ pre rows row,
    (FillTopics c d').2 = pre ++ [EvGui rows; EvUnlock] ∧
    rows !! t = Some row ∧
    shownMessages row = (numMessages s + Z.of_nat (length sizes))%Z ∧
    shownHz row = Z.of_nat (length sizes) ∧
    (shownBandwidth row, shownUnits row) = bandwidth_units (total_bytes sizes).
Proof.
  intros Hs Hp Hl Hw Hb Hn Hk Hsizes Htot d'.
  pose proof (total_bytes_nonneg sizes Hsizes) as Hnonneg.
  destruct (run_messages sizes d t s Hs) as [H1 H2].
  { unfold in_range. rewrite Hw, Hb. lia. }
  destruct (FillTopics_trace_end c d') as (pre & m & Htr & _ & Hm).
  specialize (Hm t Hl). unfold d' in Hm at 1. rewrite H2 in Hm.
  specialize (Hm Hp). unfold d' in Hm. rewrite H1, lookup_insert_eq in Hm.
  rewrite Hw, Hb, !Z.add_0_l, !wrap64_small in Hm by lia.
  exists pre, (UpdateGUIStats m). eexists. split; [exact Htr|].
  rewrite UpdateGUIStats_lookup, Hm. cbn [fmap option_fmap option_map].
  split; [reflexivity|]. unfold gui_row_of.
  cbn [numMessages numMessagesLastSec numBytesLastSec].
  by destruct (bandwidth_units (total_bytes sizes)).
Qed.

Lemma tick_shows_messages_since_last_tick_witness :
  ∃ pre rows row,
    (FillTopics (mkCycle ["/a"] (λ _, true))
       (run (mkPrivate ["/a"] {[ "/a" := mkBasicStats 7 0 0 ]})
            (Message "/a" <$> [100; 250; 1150]%Z)).1).2
      = pre ++ [EvGui rows; EvUnlock] ∧
    rows !! "/a" = Some row ∧ shownMessages row = 10%Z ∧ shownHz row = 3%Z ∧
    (shownBandwidth row, shownUnits row) = bandwidth_units 1500.
Proof.
  apply (tick_shows_messages_since_last_tick (mkCycle ["/a"] (λ _, true))
           (mkPrivate ["/a"] {[ "/a" := mkBasicStats 7 0 0 ]}) "/a"
           (mkBasicStats 7 0 0) [100; 250; 1150]%Z).
  - vm_compute. reflexivity.
  - apply list_elem_of_here.
  - apply list_elem_of_here.
  - reflexivity.
  - reflexivity.
  - cbn. lia.
  - cbn. lia.
  - repeat constructor; lia.
  - cbn. lia.
Defined.

(** X13. The bandwidth shown for a byte count that is not negative is
    never negative, its unit is one of B/s, KB/s and MB/s, it is at
    least 1 from 1000 bytes on and stays below 1000 up to 999999999
    bytes. *)
Theorem bandwidth_units_bounds b :
  (0 ≤ b)%Z →
  (0 <= (bandwidth_units b).1)%Q ∧
  ((bandwidth_units b).2 = "B/s" ∨ (bandwidth_units b).2 = "KB/s" ∨
   (bandwidth_units b).2 = "MB/s") ∧
  ((1000 ≤ b)%Z → (1 <= (bandwidth_units b).1)%Q) ∧
  ((b < 1000000000)%Z → ((bandwidth_units b).1 < 1000)%Q).
Proof.
  intros Hb. destruct (Z_lt_le_dec b 1000) as [H1|H1].
  - rewrite bandwidth_units_B by done. cbn [fst snd].
    unfold Qle, Qlt, inject_Z. cbn. repeat split; try lia. by left.
  - destruct (Z_lt_le_dec b 1000000) as [H2|H2].
    + rewrite bandwidth_units_KB by done. cbn [fst snd].
      unfold Qle, Qlt, Qdiv, Qmult, Qinv, inject_Z. cbn.
      repeat split; try lia. right. by left.
    + rewrite bandwidth_units_MB by done. cbn [fst snd].
      unfold Qle, Qlt, Qdiv, Qmult, Qinv, inject_Z. cbn.
      repeat split; try lia. right. by right.
Qed.

Lemma bandwidth_units_bounds_witness :
  (0 <= (bandwidth_units 999999).1)%Q ∧ ((bandwidth_units 999999).1 < 1000)%Q.
Proof.
  destruct (bandwidth_units_bounds 999999) as (H1 & _ & _ & H2); [lia|].
  split; [exact H1|]. apply H2. lia.
Defined.

End RatesMore.

(** ** Further properties of the row filter *)

Section FilterMore.
Import Str SearchModel.

Implicit Types (c sep : ascii) (s search label word w : list ascii)
  (ws : list (list ascii)).

(** X14. Splitting a search at a separator loses nothing: the parts,
    written one after the other with the separator in between, give the
    search back, no part contains the separator and there is always at
    least one part; conversely a non-empty list of separator-free words
    is what splitting their concatenation returns. *)
Theorem split_join_round_trip sep s ws :
  join sep (split sep s) = s ∧
  Forall (λ w, sep ∉ w) (split sep s) ∧
  split sep s ≠ [] ∧
  (ws ≠ [] → Forall (λ w, sep ∉ w) ws → split sep (join sep ws) = ws).
Proof.
  destruct (join_split sep s) as [H1 H2].
  split; [done|]. split; [done|]. split; [apply split_not_nil|].
  apply split_join.
Qed.

Lemma split_join_round_trip_witness :
  split space (join space [s2l "foo"; []; s2l "bar"])
  = [s2l "foo"; []; s2l "bar"].
Proof.
  apply (proj2 (proj2 (proj2 (split_join_round_trip space []
           [s2l "foo"; []; s2l "bar"])))).
  - discriminate.
  - apply (bool_decide_unpack _). vm_compute. exact I.
Defined.



Lemma upper_app s1 s2 : upper (s1 ++ s2) = upper s1 ++ upper s2.
Proof. apply map_app. Qed.





Lemma join_infix sep ws w : w ∈ ws → infix_of w (join sep ws).
Proof.
  induction ws as [|w1 ws IH]; intros Hin; [by apply elem_of_nil in Hin|].
  apply elem_of_cons in Hin as [->|Hin].
  - destruct ws as [|w2 ws].
    + exists [], []. by rewrite app_nil_r.
    + by exists [], (sep :: join sep (w2 :: ws)).
  - destruct (IH Hin) as (pre & post & Hj). destruct ws as [|w2 ws].
    + by apply elem_of_nil in Hin.
    + exists (w1 ++ sep :: pre), post.
      change (join sep (w1 :: w2 :: ws)) with (w1 ++ sep :: join sep (w2 :: ws)).
      rewrite Hj. by rewrite <- app_assoc.
Qed.

(** X16. Every label is accepted by the search that is the label
    itself, whatever spaces it contains. *)
Theorem filterAcceptsRow_label_itself label :
  filterAcceptsRow label label = true.
Proof.
  rewrite filterAcceptsRow_words. apply accepts_words_spec.
  intros w Hw _. destruct (join_split space label) as [Hj _].
  destruct (join_infix space _ _ Hw) as (pre & post & Hpp).
  rewrite Hj in Hpp. exists (upper pre), (upper post).
  by rewrite Hpp, !upper_app.
Qed.

Lemma split_app sep s w :
  split sep (s ++ sep :: w) = split sep s ++ split sep w.
Proof.
  induction s as [|c s IH]; cbn [app split].
  - by rewrite Ascii.eqb_refl.
  - rewrite IH. destruct (Ascii.eqb c sep); [done|].
    pose proof (split_not_nil sep s). by destruct (split sep s).
Qed.

Lemma accepts_words_app label ws1 ws2 :
  accepts_words label (ws1 ++ ws2) =
    accepts_words label ws1 && accepts_words label ws2.
Proof.
  induction ws1 as [|w ws1 IH]; [done|]. cbn [app accepts_words].
  destruct w as [|c w]; [done|].
  by destruct (filterAcceptsRowItself label (c :: w)).
Qed.

(** X17. A space means "and": a search made of two searches with a space
    in between accepts exactly the rows that both accept, so the order
    of the words of a search does not matter. *)
Theorem filterAcceptsRow_conjunction search1 search2 label :
  filterAcceptsRow (search1 ++ space :: search2) label =
    filterAcceptsRow search1 label && filterAcceptsRow search2 label ∧
  filterAcceptsRow (search1 ++ space :: search2) label =
    filterAcceptsRow (search2 ++ space :: search1) label.
Proof.
  assert (∀ a b, filterAcceptsRow (a ++ space :: b) label =
                 filterAcceptsRow a label && filterAcceptsRow b label) as H.
  { intros a b. rewrite !filterAcceptsRow_words, split_app.
    apply accepts_words_app. }
  split; [apply H|]. rewrite !H. apply andb_comm.
Qed.

End FilterMore.

(** ** Further properties of the highlighting *)

Section HighlightMore.
Import Str ItemDelegate PaintProps.

Implicit Types (text word w search label : list ascii)
  (ws : list (list ascii)) (bold : bold_map) (runs : list run).

Lemma substr_length text pos n :
  pos + n ≤ length text → length (substr text pos n) = n.
Proof. intros H. unfold substr. rewrite length_take, length_drop. lia. Qed.

Lemma tiles_app text a runs1 b runs2 c :
  tiles text a runs1 b → tiles text b runs2 c → tiles text a (runs1 ++ runs2) c.
Proof.
  revert a. induction runs1 as [|r runs1 IH]; intros a H1 H2.
  - cbn in H1. by subst.
  - cbn [app tiles] in *. destruct H1 as (? & ? & ? & ? & H1).
    repeat split; try done. by apply IH.
Qed.

Lemma paint_loop_tiles text bold r :
  r ≤ length text →
  (∀ s l, (s, l) ∈ bold → 0 < l ∧ s + l ≤ length text) →
  tiles text r (paint_loop text bold r).2 (paint_loop text bold r).1.
Proof.
  revert r. induction bold as [|[s l] rest IH]; intros r Hr Hb; [done|].
  assert (∀ s l, (s, l) ∈ rest → 0 < l ∧ s + l ≤ length text) as Hrest.
  { intros s0 l0 Hin. apply Hb, elem_of_cons. by right. }
  destruct (Hb s l) as [Hl Hsl]; [apply list_elem_of_here|].
  destruct (adjust r s l) as [[s' l']|] eqn:E.
  - rewrite (paint_loop_draw _ _ _ _ _ _ _ E). cbn [fst snd].
    apply adjust_Some in E as (H1 & H2 & H3 & H4 & _); [|done].
    replace (r + (s' - r)) with s' by lia.
    cbn [tiles rpos rlen rtext].
    split; [done|]. split; [lia|]. split; [done|].
    split; [apply substr_length; lia|].
    replace (r + (s' - r)) with s' by lia.
    split; [done|]. split; [lia|]. split; [done|].
    split; [apply substr_length; lia|].
    apply IH; [lia|done].
  - rewrite (paint_loop_skip _ _ _ _ _ E). by apply IH.
Qed.

Lemma remaining_tiles text r :
  r ≤ length text → tiles text r (remaining text r) (length text).
Proof.
  intros Hr. unfold remaining. destruct (r <? length text) eqn:E.
  - apply Nat.ltb_lt in E. cbn [tiles rpos rlen rtext].
    split; [done|]. split; [lia|]. split.
    + unfold substr. by rewrite take_ge by (rewrite length_drop; lia).
    + split; [rewrite length_drop; lia|lia].
  - apply Nat.ltb_ge in E. cbn. lia.
Qed.

(** X18. [paint] never asks [substr] for text outside the name: the runs
    it draws lie one after the other from offset 0 to the end of the
    name, each inside the name and each exactly as long as requested. *)
Theorem paint_runs_tile_label search label :
  ∃ p, paint search label = Some p ∧
       tiles label 0 (runs_of p) (length label).
Proof.
  destruct (bold_of_spec search label) as (bold & Hb & Hwf & Hget).
  destruct (decide (label = [])) as [->|Hne].
  - exists EmptyTopicName. by split.
  - eexists. split; [by apply paint_nonempty|]. cbn [runs_of].
    pose proof (λ s l, bold_of_entries search label bold s l Hb) as Hent'.
    destruct (paint_loop_text label bold 0) as (_ & T2 & _); [lia|done|].
    eapply tiles_app.
    + apply paint_loop_tiles; [lia|done].
    + by apply remaining_tiles.
Qed.








End HighlightMore.

(** ** Header titles and drag-and-drop data *)

Section HeaderAndMime.
Import Header ItemModel.

Lemma headerData_other (section : Z) :
  ¬ (0 ≤ section ≤ 3)%Z →
  headerData section Horizontal DisplayRole =
    (QText EmptyString, ["Something went wrong parsing headers"]).
Proof.
  intros H. destruct section as [|p|p]; [lia| |done].
  destruct p as [[p|p|]|[p|p|]|]; try done; lia.
Qed.

(** X21. [headerData] gives a title that is not empty exactly for the
    display role, the horizontal orientation and the sections 0 to 3, and
    the four titles differ; another section of a horizontal header gives
    the empty string and prints an error; any other role or a vertical
    header gives an invalid value and prints nothing. *)
Theorem headerData_titles (section : Z) (orientation : Orientation) (role : Z) :
  ((∃ text, (headerData section orientation role).1 = QText text ∧
            text ≠ EmptyString) ↔
     role = DisplayRole ∧ orientation = Horizontal ∧ (0 ≤ section ≤ 3)%Z) ∧
  ((headerData section orientation role).2 ≠ [] ↔
     role = DisplayRole ∧ orientation = Horizontal ∧ ¬ (0 ≤ section ≤ 3)%Z) ∧
  ((headerData section orientation role).1 = QInvalid ↔
     role ≠ DisplayRole ∨ orientation = Vertical) ∧
  (∀ section', (0 ≤ section ≤ 3)%Z → (0 ≤ section' ≤ 3)%Z →
     headerData section Horizontal DisplayRole =
       headerData section' Horizontal DisplayRole → section = section').
Proof.
  assert (∀ n, (0 ≤ n ≤ 3)%Z → n = 0%Z ∨ n = 1%Z ∨ n = 2%Z ∨ n = 3%Z) as Hcases
    by (intros; lia).
  split; [|split; [|split]].
  - unfold headerData. destruct (role =? DisplayRole)%Z eqn:Er.
    + apply Z.eqb_eq in Er. destruct orientation.
      * destruct (decide (0 ≤ section ≤ 3)%Z) as [Hs|Hs].
        -- split; [done|]. intros _.
           destruct (Hcases _ Hs) as [-> | [-> | [-> | ->]]]; by eexists.
        -- pose proof (headerData_other section Hs) as Ho.
           unfold headerData in Ho. cbn [Z.eqb DisplayRole] in Ho. rewrite Ho.
           split; [|tauto]. cbn. by intros (text & [= <-] & ?).
      * split; [by intros (? & ? & _)|]. by intros (_ & ? & _).
    + apply Z.eqb_neq in Er. split; [by intros (? & ? & _)|tauto].
  - unfold headerData. destruct (role =? DisplayRole)%Z eqn:Er.
    + apply Z.eqb_eq in Er. destruct orientation.
      * destruct (decide (0 ≤ section ≤ 3)%Z) as [Hs|Hs].
        -- split; [|tauto].
           destruct (Hcases _ Hs) as [-> | [-> | [-> | ->]]]; done.
        -- pose proof (headerData_other section Hs) as Ho.
           unfold headerData in Ho. cbn [Z.eqb DisplayRole] in Ho. rewrite Ho.
           done.
      * split; [done|]. by intros (_ & ? & _).
    + apply Z.eqb_neq in Er. split; [done|tauto].
  - unfold headerData. destruct (role =? DisplayRole)%Z eqn:Er.
    + apply Z.eqb_eq in Er. destruct orientation.
      * split; [|by intros [?|?]].
        destruct (decide (0 ≤ section ≤ 3)%Z) as [Hs|Hs].
        -- destruct (Hcases _ Hs) as [-> | [-> | [-> | ->]]]; done.
        -- pose proof (headerData_other section Hs) as Ho.
           unfold headerData in Ho. cbn [Z.eqb DisplayRole] in Ho. by rewrite Ho.
      * split; [by right|done].
    + apply Z.eqb_neq in Er. split; [by left|done].
  - intros section' Hs Hs'.
    destruct (Hcases _ Hs) as [-> | [-> | [-> | ->]]],
             (Hcases _ Hs') as [-> | [-> | [-> | ->]]]; done.
Qed.

Lemma c_str_no_zero text : Ascii.zero ∉ c_str text.
Proof.
  induction text as [|ch text IH]; cbn [c_str]; [apply not_elem_of_nil|].
  destruct (Ascii.eqb ch Ascii.zero) eqn:E; [apply not_elem_of_nil|].
  apply Ascii.eqb_neq in E. apply not_elem_of_cons. split; [congruence|done].
Qed.

Lemma c_str_prefix text : c_str text `prefix_of` text.
Proof.
  induction text as [|ch text IH]; cbn [c_str]; [done|].
  destruct (Ascii.eqb ch Ascii.zero); [apply prefix_nil|].
  by apply prefix_cons.
Qed.

Lemma c_str_id text : Ascii.zero ∉ text → c_str text = text.
Proof.
  induction text as [|ch text IH]; intros H; cbn [c_str]; [done|].
  apply not_elem_of_cons in H as [H1 H2].
  destruct (Ascii.eqb ch Ascii.zero) eqn:E;
    [apply Ascii.eqb_eq in E; congruence|].
  by rewrite IH.
Qed.

(** X22. Dragging a selection carries the data of its first valid item
    only: nothing is stored when no index is valid; otherwise what is
    stored is the query string of the first valid index, whatever
    follows it, cut at its first zero byte (so unchanged when it has
    none). *)
Theorem mimeData_first_valid (indexes : list QModelIndex) :
  (mimeData indexes = None ↔ Forall (λ i, isValid i = false) indexes) ∧
  (∀ pre idx post,
     indexes = pre ++ idx :: post →
     Forall (λ i, isValid i = false) pre → isValid idx = true →
     mimeData indexes = Some (c_str (uriQuery idx)) ∧
     (Ascii.zero ∉ c_str (uriQuery idx)) ∧
     c_str (uriQuery idx) `prefix_of` uriQuery idx ∧
     (Ascii.zero ∉ uriQuery idx → mimeData indexes = Some (uriQuery idx))).
Proof.
  split.
  - induction indexes as [|i indexes IH]; cbn [mimeData].
    + split; [by constructor|done].
    + destruct (isValid i) eqn:E.
      * split; [done|]. intros H%Forall_cons_1. destruct H. congruence.
      * rewrite IH. split; [by constructor|by intros [_ ?]%Forall_cons_1].
  - intros pre idx post -> Hpre Hidx.
    assert (mimeData (pre ++ idx :: post) = Some (c_str (uriQuery idx))) as H.
    { induction Hpre as [|i pre Hi _ IH]; cbn [app mimeData].
      - by rewrite Hidx.
      - by rewrite Hi. }
    split; [done|]. split; [apply c_str_no_zero|]. split; [apply c_str_prefix|].
    intros Hz. by rewrite H, c_str_id.
Qed.

Lemma mimeData_first_valid_witness :
  mimeData [mkIndex false (s2l "/a?p=x"); mkIndex true (s2l "/b?p=y");
            mkIndex true (s2l "/c?p=z")]
  = Some (s2l "/b?p=y").
Proof.
  apply (proj2 (mimeData_first_valid
                  [mkIndex false (s2l "/a?p=x"); mkIndex true (s2l "/b?p=y");
                   mkIndex true (s2l "/c?p=z")])
           [mkIndex false (s2l "/a?p=x")] (mkIndex true (s2l "/b?p=y"))
           [mkIndex true (s2l "/c?p=z")]).
  - reflexivity.
  - by repeat constructor.
  - reflexivity.
  - apply (bool_decide_unpack _). vm_compute. exact I.
Defined.

End HeaderAndMime.

(** ** The display plugin *)

Section Display.
Import DisplayPlugin.

Implicit Types (env : Rendering) (elem : option XMLElement)
  (d : DisplayPluginPrivate).

Lemma LoadConfig_found env elem deleteLater d :
  has_engine env (chosen_engine elem) = true →
  has_scene env (chosen_engine elem) (chosen_scene elem d) = true →
  LoadConfig env elem deleteLater d =
    (mkDisplay "Unnamed display" (Some (chosen_engine elem))
       (chosen_scene elem d)
       (Some (chosen_engine elem, chosen_scene elem d)) (visible d),
     [], if deleteLater then NoWidgets else Initialized).
Proof.
  intros He Hs. unfold LoadConfig.
  fold (chosen_engine elem). fold (chosen_scene elem d).
  rewrite He, Hs. by destruct deleteLater.
Qed.

Lemma LoadConfig_no_scene env elem deleteLater d :
  has_engine env (chosen_engine elem) = true →
  has_scene env (chosen_engine elem) (chosen_scene elem d) = false →
  LoadConfig env elem deleteLater d =
    (mkDisplay "Unnamed display" (Some (chosen_engine elem))
       (chosen_scene elem d) (visual d) (visible d),
     [scene_error (chosen_scene elem d)],
     if deleteLater then NoWidgets
     else ErrorMessage (scene_error (chosen_scene elem d))).
Proof.
  intros He Hs. unfold LoadConfig.
  fold (chosen_engine elem). fold (chosen_scene elem d).
  rewrite He, Hs. by destruct deleteLater.
Qed.

Lemma LoadConfig_no_engine env elem deleteLater d :
  has_engine env (chosen_engine elem) = false →
  LoadConfig env elem deleteLater d =
    (mkDisplay "Unnamed display" None (chosen_scene elem d) (visual d)
       (visible d),
     [engine_error (chosen_engine elem)],
     if deleteLater then NoWidgets
     else ErrorMessage (engine_error (chosen_engine elem))).
Proof.
  intros He. unfold LoadConfig.
  fold (chosen_engine elem). fold (chosen_scene elem d).
  rewrite He. by destruct deleteLater.
Qed.


(** X24. After [LoadConfig], the visual is attached to the scene that
    [Scene] returns when engine and scene exist; when the engine does not
    exist the engine pointer is null, no visual is created for a newly
    constructed plugin, and [Scene] dereferences the null pointer; when
    only the scene is missing [Scene] returns no scene. *)
Theorem Scene_after_LoadConfig env elem deleteLater :
  let d' := (LoadConfig env elem deleteLater constructed).1.1 in
  (has_engine env (chosen_engine elem) = false →
     Scene env d' = NullEngine ∧ Visual d' = None) ∧
  (has_engine env (chosen_engine elem) = true →
   has_scene env (chosen_engine elem) (chosen_scene elem constructed) = false →
     Scene env d' = NoScene ∧ Visual d' = None) ∧
  (has_engine env (chosen_engine elem) = true →
   has_scene env (chosen_engine elem) (chosen_scene elem constructed) = true →
     Scene env d' =
       SceneFound (chosen_engine elem) (chosen_scene elem constructed) ∧
     Visual d' = Some (chosen_engine elem, chosen_scene elem constructed)).
Proof.
  intros d'. unfold d'. split; [|split].
  - intros He. by rewrite (LoadConfig_no_engine _ _ _ _ He).
  - intros He Hs. rewrite (LoadConfig_no_scene _ _ _ _ He Hs).
    unfold Scene. cbn [fst engine sceneName]. by rewrite Hs.
  - intros He Hs. rewrite (LoadConfig_found _ _ _ _ He Hs).
    unfold Scene. cbn [fst engine sceneName]. by rewrite Hs.
Qed.

Lemma Scene_after_LoadConfig_witness :
  Scene (mkRendering (λ e, bool_decide (e = "ogre")) (λ _ _, true))
    (LoadConfig (mkRendering (λ e, bool_decide (e = "ogre")) (λ _ _, true))
       (Some (mkElement (Some "ogre2") None)) false constructed).1.1
  = NullEngine.
Proof.
  apply (proj1 (Scene_after_LoadConfig
           (mkRendering (λ e, bool_decide (e = "ogre")) (λ _ _, true))
           (Some (mkElement (Some "ogre2") None)) false)).
  vm_compute. reflexivity.
Defined.

End Display.

(** ** Examples *)

Section Examples.
Import TopicsStats.

Example paint_ab_abab :
  option_map (λ p, ItemDelegate.spans (ItemDelegate.runs_of p))
    (ItemDelegate.paint (s2l "AB") (s2l "ABAB")) = Some [(0, 2); (2, 2)].
Proof. vm_compute. reflexivity. Qed.

Example paint_overlapping_words :
  option_map (λ p, map (λ r, (ItemDelegate.rfont r,
                              string_of_list_ascii (ItemDelegate.rtext r)))
                       (ItemDelegate.runs_of p))
    (ItemDelegate.paint (s2l "abc bcd  x") (s2l "zabcdxbc"))
  = Some [(ItemDelegate.Regular, "z"); (ItemDelegate.Bold, "abc");
          (ItemDelegate.Regular, ""); (ItemDelegate.Bold, "d");
          (ItemDelegate.Regular, ""); (ItemDelegate.Bold, "x");
          (ItemDelegate.Regular, "bc")].
Proof. vm_compute. reflexivity. Qed.

Example filter_foo_bar :
  (SearchModel.filterAcceptsRow (s2l "FOO BAR") (s2l "a foobar b"),
   SearchModel.filterAcceptsRow (s2l "FOO BAR") (s2l "foo"),
   SearchModel.filterAcceptsRow (s2l "") (s2l "anything"),
   SearchModel.filterAcceptsRow (s2l "  ") (s2l "anything"))
  = (true, false, true, true).
Proof. vm_compute. reflexivity. Qed.

Example bandwidth_examples :
  (bandwidth_units 500).2 = "B/s" ∧ (bandwidth_units 999).2 = "B/s" ∧
  (bandwidth_units 1000).2 = "KB/s" ∧ (bandwidth_units 1024).2 = "KB/s" ∧
  (bandwidth_units 999999).2 = "KB/s" ∧ (bandwidth_units 2500000).2 = "MB/s" ∧
  (bandwidth_units 1500).1 == 3 # 2 ∧ (bandwidth_units 2500000).1 == 5 # 2.
Proof. vm_compute. repeat split; reflexivity. Qed.

(** A topic whose subscription failed is listed again and not retried;
    a vanished topic is unsubscribed. *)
Example two_cycles :
  (run initial [Tick (mkCycle ["/a"; "/b"] (λ t, bool_decide (t = "/a")));
                Tick (mkCycle ["/b"] (λ _, true))]).2
  = [EvTopicList ["/a"; "/b"]; EvLock; EvSubscribe "/a" true;
     EvSubscribe "/b" false; EvCerr "Error subscribing to [/b]";
     EvGui {[ "/a" := mkRow 0 0 0 "B/s" ]}; EvUnlock;
     EvTopicList ["/b"]; EvLock; EvUnsubscribe "/a"; EvGui ∅; EvUnlock].
Proof. vm_compute. reflexivity. Qed.

End Examples.
